(** * TranslationEditor: a verification model of the translation table component

    The component of [src/features/TranslationEditor/TranslationEditor.tsx]
    loads a JSON dictionary [{ key: { defaultMessage: text } }], lets the user
    edit it as a table of rows and exports it again.  This development embeds
    its handlers as functions on an explicit component state and proves the
    properties of the data model.

    Layout:
    - [JSString]  JavaScript strings and the string primitives the component
                  calls ([trim], [replace], [Number.prototype.toString]);
    - [JSObject]  ordinary objects as lists of own properties in enumeration
                  order, with definition and assignment of a property;
    - [JSON]      [JSON.parse];
    - the data model and [Stringify], [JSON.stringify (_, null, 2)] of it;
    - the handlers: import, table edits, derived predicates, export;
    - sequences of user actions;
    - lemmas, the claims C1 to C10, further properties and the scenarios of
      the specification.

    The hooks of the component hold whatever the import gave the setters:
    [Stored] is the state as it is held, [import] the import on it, and
    [Untyped] has the row predicates on stored values, where they can throw.
    The table edits and the export are embedded on [State], the state at the
    types the component declares ([TranslationEntry], [TranslationData]);
    [as_State] reads a stored state at these types, and [upload] is [import]
    read that way. *)

From Stdlib Require Import List NArith ZArith Bool Lia String Ascii Sorted.
From Stdlib Require DecimalZ.
Import ListNotations.

Set Implicit Arguments.
Set Warnings "-register-all".

(* ------------------------------------------------------------------ *)
(** * JavaScript strings *)

Module JSString.

(** A JavaScript string is a sequence of UTF-16 code units. *)
Definition code_unit := N.
Definition jsstring := list code_unit.

(** [js "text"] is the JavaScript string of an ASCII literal. *)
Definition js (s : string) : jsstring :=
  List.map N_of_ascii (list_ascii_of_string s).

(** [a === b] on strings. *)
Fixpoint str_eqb (a b : jsstring) : bool :=
  match a, b with
  | [], [] => true
  | x :: a', y :: b' => N.eqb x y && str_eqb a' b'
  | _, _ => false
  end.

(** White space and line terminators, the code units [trim] removes
    (ECMAScript WhiteSpace and LineTerminator). *)
Definition is_white_space (c : code_unit) : bool :=
  ((9 <=? c) && (c <=? 13)               (* TAB LF VT FF CR *)
   || (c =? 32) || (c =? 160)            (* SP NBSP *)
   || (c =? 5760)                        (* U+1680 *)
   || ((8192 <=? c) && (c <=? 8202))     (* U+2000 .. U+200A *)
   || (c =? 8232) || (c =? 8233)         (* LS PS *)
   || (c =? 8239) || (c =? 8287)         (* U+202F U+205F *)
   || (c =? 12288) || (c =? 65279))%N.   (* U+3000 BOM *)

Fixpoint trimStart (s : jsstring) : jsstring :=
  match s with
  | c :: t => if is_white_space c then trimStart t else s
  | [] => []
  end.

(** [s.trim()] *)
Definition trim (s : jsstring) : jsstring :=
  rev (trimStart (rev (trimStart s))).

(** [strip_prefix p s] is [Some r] when [s = p ++ r]. *)
Fixpoint strip_prefix (p s : jsstring) : option jsstring :=
  match p, s with
  | [], _ => Some s
  | x :: p', y :: s' => if N.eqb x y then strip_prefix p' s' else None
  | _ :: _, [] => None
  end.

(** [s.replace(p, '')] for a string pattern [p]: the first occurrence of
    [p] in [s] is removed, the rest is kept. *)
Fixpoint replace_first (p s : jsstring) : jsstring :=
  match strip_prefix p s with
  | Some r => r
  | None =>
      match s with
      | [] => []
      | c :: t => c :: replace_first p t
      end
  end.

(** [s.replace(/p$/, '')] for a literal [p]: the pattern is anchored at the
    end of the input, so only a suffix [p] is removed. *)
Definition replace_at_end (p s : jsstring) : jsstring :=
  match strip_prefix (rev p) (rev s) with
  | Some r => rev r
  | None => s
  end.

(** Decimal digits. *)
Definition is_digit (c : code_unit) : bool := ((48 <=? c) && (c <=? 57))%N.

Fixpoint digits_value (acc : N) (s : jsstring) : option N :=
  match s with
  | [] => Some acc
  | c :: t => if is_digit c then digits_value (10 * acc + (c - 48))%N t else None
  end.

(** An array index is a canonical numeric string ("0", or digits without a
    leading zero) whose value is at most 2^32 - 2.  Such property names are
    enumerated before all others, in ascending numeric order. *)
Definition array_index (k : jsstring) : option N :=
  match k with
  | [] => None
  | c :: t =>
      if (c =? 48)%N then
        match t with [] => Some 0%N | _ => None end
      else
        match digits_value 0 k with
        | Some n => if (n <=? 4294967294)%N then Some n else None
        | None => None
        end
  end.

(** [n.toString()] for an integer [n] below 2^53 in size: the decimal
    digits, with a minus sign for a negative number. *)
Fixpoint uint_units (d : Decimal.uint) : jsstring :=
  match d with
  | Decimal.Nil => []
  | Decimal.D0 d => 48%N :: uint_units d
  | Decimal.D1 d => 49%N :: uint_units d
  | Decimal.D2 d => 50%N :: uint_units d
  | Decimal.D3 d => 51%N :: uint_units d
  | Decimal.D4 d => 52%N :: uint_units d
  | Decimal.D5 d => 53%N :: uint_units d
  | Decimal.D6 d => 54%N :: uint_units d
  | Decimal.D7 d => 55%N :: uint_units d
  | Decimal.D8 d => 56%N :: uint_units d
  | Decimal.D9 d => 57%N :: uint_units d
  end.

Definition toString (n : Z) : jsstring :=
  match Z.to_int n with
  | Decimal.Pos d => uint_units d
  | Decimal.Neg d => 45%N :: uint_units d
  end.

End JSString.
Import JSString.

(* ------------------------------------------------------------------ *)
(** * Ordinary JavaScript objects *)

Module JSObject.

(** An ordinary object is modelled by the list of its own enumerable
    properties in the order [Object.entries], [for-in] and [JSON.stringify]
    visit them: array-index names first, in ascending numeric order, then
    all other names in the order they were created. *)
Definition object (V : Type) := list (jsstring * V).

Section Properties.
Variable V : Type.

(** The own property [k], if the object has one. *)
Fixpoint own_lookup (o : object V) (k : jsstring) : option V :=
  match o with
  | [] => None
  | (k', v) :: t => if str_eqb k' k then Some v else own_lookup t k
  end.

(** [Object.prototype.hasOwnProperty.call(o, k)] *)
Definition hasOwnProperty (o : object V) (k : jsstring) : bool :=
  match own_lookup o k with Some _ => true | None => false end.

(** Overwriting the value of an existing property keeps its place. *)
Fixpoint overwrite (o : object V) (k : jsstring) (v : V) : object V :=
  match o with
  | [] => []
  | (k', v') :: t =>
      if str_eqb k' k then (k', v) :: t else (k', v') :: overwrite t k v
  end.

(** A new array-index property [k] (of value [n]) goes before the first
    property that is not an array index or has a larger index. *)
Fixpoint insert_index (n : N) (k : jsstring) (v : V) (o : object V)
  : object V :=
  match o with
  | [] => [(k, v)]
  | (k', v') :: t =>
      match array_index k' with
      | Some m =>
          if (n <? m)%N then (k, v) :: o
          else (k', v') :: insert_index n k v t
      | None => (k, v) :: o
      end
  end.

(** A new property: an array index is placed by its number, any other
    name goes last. *)
Definition create (o : object V) (k : jsstring) (v : V) : object V :=
  match array_index k with
  | Some n => insert_index n k v o
  | None => o ++ [(k, v)]
  end.

(** [CreateDataProperty(o, k, v)], what [JSON.parse] does for each member
    of an object literal: it defines an own property whatever the name. *)
Definition define (o : object V) (k : jsstring) (v : V) : object V :=
  if hasOwnProperty o k then overwrite o k v else create o k v.

(** [o[k] = v] on an object whose prototype chain ends in
    [Object.prototype].  An own property is overwritten; otherwise the
    name is looked up in the prototype chain, where ["__proto__"] is an
    accessor: the assignment calls its setter, which (for the object
    values assigned here) replaces the prototype of [o] and creates no own
    property.  Any other name is created on [o]. *)
Definition assign (o : object V) (k : jsstring) (v : V) : object V :=
  if hasOwnProperty o k then overwrite o k v
  else if str_eqb k (js "__proto__") then o
  else create o k v.

(** The property names, in enumeration order. *)
Definition keys (o : object V) : list jsstring := List.map fst o.

End Properties.

End JSObject.
Import JSObject.

(* ------------------------------------------------------------------ *)
(** * JSON *)

Module JSON.

(** A value as [JSON.parse] returns it.  A number is kept as its literal:
    the component never computes with one. *)
Inductive json : Type :=
| JNull
| JBool (b : bool)
| JNum (literal : jsstring)
| JStr (s : jsstring)
| JArr (elements : list json)
| JObj (properties : object json).

(** ** JSON.parse *)

(** JSON white space: TAB, LF, CR, SP. *)
Definition is_json_ws (c : code_unit) : bool :=
  ((c =? 9) || (c =? 10) || (c =? 13) || (c =? 32))%N.

Fixpoint skip_ws (s : jsstring) : jsstring :=
  match s with
  | c :: t => if is_json_ws c then skip_ws t else s
  | [] => []
  end.

Definition hex_digit (c : code_unit) : option N :=
  if is_digit c then Some (c - 48)%N
  else if ((97 <=? c) && (c <=? 102))%N then Some (c - 87)%N
  else if ((65 <=? c) && (c <=? 70))%N then Some (c - 55)%N
  else None.

Definition hex4 (a b c d : code_unit) : option code_unit :=
  match hex_digit a, hex_digit b, hex_digit c, hex_digit d with
  | Some x, Some y, Some z, Some w => Some (4096 * x + 256 * y + 16 * z + w)%N
  | _, _, _, _ => None
  end.

(** The code unit of a one-letter escape. *)
Definition simple_escape (e : code_unit) : option code_unit :=
  if (e =? 34)%N then Some 34%N            (* quotation mark *)
  else if (e =? 92)%N then Some 92%N       (* reverse solidus *)
  else if (e =? 47)%N then Some 47%N       (* solidus *)
  else if (e =? 98)%N then Some 8%N        (* b *)
  else if (e =? 102)%N then Some 12%N      (* f *)
  else if (e =? 110)%N then Some 10%N      (* n *)
  else if (e =? 114)%N then Some 13%N      (* r *)
  else if (e =? 116)%N then Some 9%N       (* t *)
  else None.

Definition cons_unit (u : code_unit) (r : option (jsstring * jsstring))
  : option (jsstring * jsstring) :=
  match r with
  | Some (str, rest) => Some (u :: str, rest)
  | None => None
  end.

(** The characters of a string literal after its opening quotation mark:
    the string denoted and the input after the closing quotation mark. *)
Fixpoint parse_chars (s : jsstring) : option (jsstring * jsstring) :=
  match s with
  | [] => None
  | c :: r =>
      if (c =? 34)%N then Some ([], r)
      else if (c =? 92)%N then
        match r with
        | [] => None
        | e :: r1 =>
            if (e =? 117)%N then
              match r1 with
              | h1 :: h2 :: h3 :: h4 :: r2 =>
                  match hex4 h1 h2 h3 h4 with
                  | Some u => cons_unit u (parse_chars r2)
                  | None => None
                  end
              | _ => None
              end
            else
              match simple_escape e with
              | Some u => cons_unit u (parse_chars r1)
              | None => None
              end
        end
      else if (c <? 32)%N then None
      else cons_unit c (parse_chars r)
  end.

(** The longest prefix of digits, and the rest. *)
Fixpoint span_digits (s : jsstring) : jsstring * jsstring :=
  match s with
  | c :: t =>
      if is_digit c then let (ds, r) := span_digits t in (c :: ds, r)
      else ([], s)
  | [] => ([], [])
  end.

(** int: [0] or a non-zero digit followed by digits. *)
Definition parse_int (s : jsstring) : option (jsstring * jsstring) :=
  match s with
  | c :: t =>
      if (c =? 48)%N then Some ([c], t)
      else if is_digit c then let (ds, r) := span_digits t in Some (c :: ds, r)
      else None
  | [] => None
  end.

(** frac: nothing, or [.] and at least one digit. *)
Definition parse_frac (s : jsstring) : option (jsstring * jsstring) :=
  match s with
  | c :: t =>
      if (c =? 46)%N then
        match span_digits t with
        | ([], _) => None
        | (ds, r) => Some (c :: ds, r)
        end
      else Some ([], s)
  | [] => Some ([], s)
  end.

(** exp: nothing, or [e]/[E], an optional sign and at least one digit. *)
Definition parse_exp (s : jsstring) : option (jsstring * jsstring) :=
  match s with
  | c :: t =>
      if ((c =? 101) || (c =? 69))%N then
        let (sign, t') :=
          match t with
          | d :: u => if ((d =? 43) || (d =? 45))%N then ([d], u) else ([], t)
          | [] => ([], t)
          end in
        match span_digits t' with
        | ([], _) => None
        | (ds, r) => Some (c :: sign ++ ds, r)
        end
      else Some ([], s)
  | [] => Some ([], s)
  end.

Definition parse_number (s : jsstring) : option (jsstring * jsstring) :=
  let (sign, s1) :=
    match s with
    | c :: t => if (c =? 45)%N then ([c], t) else ([], s)
    | [] => ([], s)
    end in
  match parse_int s1 with
  | None => None
  | Some (i, s2) =>
      match parse_frac s2 with
      | None => None
      | Some (f, s3) =>
          match parse_exp s3 with
          | None => None
          | Some (e, s4) => Some (sign ++ i ++ f ++ e, s4)
          end
      end
  end.

Definition parse_word (w : string) (v : json) (s : jsstring)
  : option (json * jsstring) :=
  match strip_prefix (js w) s with
  | Some r => Some (v, r)
  | None => None
  end.

(** The three mutually recursive parsers, each written over the parsers it
    calls: a value, the members of an object after its left brace, the
    elements of an array after its left bracket. *)
Definition result : Type := option (json * jsstring).

Definition value_step
  (members : jsstring -> object json -> result)
  (elements : jsstring -> list json -> result) (s : jsstring) : result :=
  match skip_ws s with
  | [] => None
  | c :: r =>
      if (c =? 123)%N then                         (* left brace *)
        match skip_ws r with
        | [] => None
        | d :: r' =>
            if (d =? 125)%N then Some (JObj [], r')
            else members (d :: r') []
        end
      else if (c =? 91)%N then                     (* left bracket *)
        match skip_ws r with
        | [] => None
        | d :: r' =>
            if (d =? 93)%N then Some (JArr [], r')
            else elements (d :: r') []
        end
      else if (c =? 34)%N then                     (* quotation mark *)
        match parse_chars r with
        | Some (str, rest) => Some (JStr str, rest)
        | None => None
        end
      else if (c =? 116)%N then parse_word "true" (JBool true) (c :: r)
      else if (c =? 102)%N then parse_word "false" (JBool false) (c :: r)
      else if (c =? 110)%N then parse_word "null" JNull (c :: r)
      else
        match parse_number (c :: r) with
        | Some (lit, rest) => Some (JNum lit, rest)
        | None => None
        end
  end.

(** One member [name : value], defined on the object built so far, then a
    comma and the next member, or the right brace. *)
Definition members_step
  (value : jsstring -> result)
  (members : jsstring -> object json -> result)
  (s : jsstring) (acc : object json) : result :=
  match skip_ws s with
  | [] => None
  | c :: r =>
      if (c =? 34)%N then
        match parse_chars r with
        | None => None
        | Some (k, r1) =>
            match skip_ws r1 with
            | [] => None
            | d :: r2 =>
                if (d =? 58)%N then                (* colon *)
                  match value r2 with
                  | None => None
                  | Some (v, r3) =>
                      match skip_ws r3 with
                      | [] => None
                      | e :: r4 =>
                          if (e =? 44)%N then members r4 (define acc k v)
                          else if (e =? 125)%N
                               then Some (JObj (define acc k v), r4)
                          else None
                      end
                  end
                else None
            end
        end
      else None
  end.

(** One element, then a comma and the next element, or the right bracket. *)
Definition elements_step
  (value : jsstring -> result)
  (elements : jsstring -> list json -> result)
  (s : jsstring) (acc : list json) : result :=
  match value s with
  | None => None
  | Some (v, r) =>
      match skip_ws r with
      | [] => None
      | e :: r' =>
          if (e =? 44)%N then elements r' (acc ++ [v])
          else if (e =? 93)%N then Some (JArr (acc ++ [v]), r')
          else None
      end
  end.

(** [fuel] bounds the depth of the calls. *)
Fixpoint parse_value (fuel : nat) (s : jsstring) {struct fuel} : result :=
  match fuel with
  | O => None
  | S fuel' =>
      value_step (parse_members fuel') (parse_elements fuel') s
  end

with parse_members (fuel : nat) (s : jsstring) (acc : object json)
       {struct fuel} : result :=
  match fuel with
  | O => None
  | S fuel' =>
      members_step (parse_value fuel') (parse_members fuel') s acc
  end

with parse_elements (fuel : nat) (s : jsstring) (acc : list json)
       {struct fuel} : result :=
  match fuel with
  | O => None
  | S fuel' =>
      elements_step (parse_value fuel') (parse_elements fuel') s acc
  end.

(** Fuel that is enough for every text (see [parse_value_fuel]). *)
Definition enough_fuel (text : jsstring) : nat := 2 * List.length text + 2.

(** [JSON.parse(text)]: [None] stands for the SyntaxError it throws. *)
Definition parse (text : jsstring) : option json :=
  match parse_value (enough_fuel text) text with
  | Some (v, rest) =>
      match skip_ws rest with
      | [] => Some v
      | _ :: _ => None
      end
  | None => None
  end.

End JSON.
Import JSON.

(** JSON text written with an apostrophe where the text has a quotation
    mark: [json_text "{'a': 1}"] is the text [{"a": 1}]. *)
Definition json_text (s : string) : jsstring :=
  List.map (fun c => if (c =? 39)%N then 34%N else c) (js s).

(* ------------------------------------------------------------------ *)
(** * The data model *)

(** The value of a property of [TranslationData]: [{ defaultMessage: string }]. *)
Record Message : Type := mkMessage { message_defaultMessage : jsstring }.

(** [interface TranslationData { [key: string]: { defaultMessage: string } }] *)
Definition TranslationData : Type := object Message.

(** [interface TranslationEntry { id; key; defaultMessage }] *)
Record TranslationEntry : Type := mkEntry {
  id : jsstring;
  key : jsstring;
  defaultMessage : jsstring
}.

(** The state hooks of the component ([useState]).  [showFloatingDownload]
    follows the scroll position only and is left out. *)
Record State : Type := mkState {
  translationEntries : list TranslationEntry;
  originalData : TranslationData;
  fileName : jsstring;
  isDownloadModalOpen : bool;
  downloadFileName : jsstring
}.

(** The state of a freshly mounted component. *)
Definition initialState : State :=
  {| translationEntries := [];
     originalData := [];
     fileName := [];
     isDownloadModalOpen := false;
     downloadFileName := [] |}.

(* ------------------------------------------------------------------ *)
(** * JSON.stringify(translationsObject, null, 2) *)

Module Stringify.

Definition hex_char (n : N) : code_unit :=
  if (n <? 10)%N then (48 + n)%N else (87 + n)%N.

(** [\uXXXX] with lower-case digits. *)
Definition unicode_escape (c : code_unit) : jsstring :=
  [92; 117;
   hex_char (c / 4096 mod 16); hex_char (c / 256 mod 16);
   hex_char (c / 16 mod 16); hex_char (c mod 16)]%N.

Definition is_high_surrogate (c : code_unit) : bool :=
  ((55296 <=? c) && (c <=? 56319))%N.
Definition is_low_surrogate (c : code_unit) : bool :=
  ((56320 <=? c) && (c <=? 57343))%N.

(** The escape of a code unit that cannot stand for itself, if it is one:
    the quotation mark, the reverse solidus and the controls below U+0020. *)
Definition escape (c : code_unit) : option jsstring :=
  if (c =? 8)%N then Some [92; 98]%N
  else if (c =? 9)%N then Some [92; 116]%N
  else if (c =? 10)%N then Some [92; 110]%N
  else if (c =? 12)%N then Some [92; 102]%N
  else if (c =? 13)%N then Some [92; 114]%N
  else if (c =? 34)%N then Some [92; 34]%N
  else if (c =? 92)%N then Some [92; 92]%N
  else if (c <? 32)%N then Some (unicode_escape c)
  else None.

(** QuoteJSONString without the quotation marks around it.  A surrogate
    pair stands for itself, a lone surrogate is written as an escape. *)
Fixpoint quote_chars (s : jsstring) : jsstring :=
  match s with
  | [] => []
  | c :: t =>
      match escape c with
      | Some e => e ++ quote_chars t
      | None =>
          if is_high_surrogate c then
            match t with
            | d :: t' =>
                if is_low_surrogate d then c :: d :: quote_chars t'
                else unicode_escape c ++ quote_chars t
            | [] => unicode_escape c
            end
          else if is_low_surrogate c then unicode_escape c ++ quote_chars t
          else c :: quote_chars t
      end
  end.

Definition quote (s : jsstring) : jsstring :=
  34%N :: quote_chars s ++ [34%N].

Definition newline : jsstring := [10%N].

(** The record [{ defaultMessage: text }] at nesting depth one. *)
Definition stringify_message (m : Message) : jsstring :=
  js "{" ++ newline
  ++ js "    " ++ quote (js "defaultMessage") ++ js ": "
  ++ quote (message_defaultMessage m) ++ newline
  ++ js "  }".

Definition stringify_property (p : jsstring * Message) : jsstring :=
  js "  " ++ quote (fst p) ++ js ": " ++ stringify_message (snd p).

(** The properties, separated by a comma and a line break. *)
Fixpoint stringify_properties (o : TranslationData) : jsstring :=
  match o with
  | [] => []
  | [p] => stringify_property p
  | p :: t => stringify_property p ++ js "," ++ newline ++ stringify_properties t
  end.

(** [JSON.stringify(o, null, 2)] for a [TranslationData] object [o]. *)
Definition stringify (o : TranslationData) : jsstring :=
  match o with
  | [] => js "{}"
  | _ :: _ => js "{" ++ newline ++ stringify_properties o ++ newline ++ js "}"
  end.

End Stringify.
Import Stringify.

(* ------------------------------------------------------------------ *)
(** * Import: handleFileUpload *)

(** The file the user picked: its name and the text [readAsText] yields. *)
Record File : Type := mkFile { name : jsstring; content : jsstring }.

(** What [value.defaultMessage] evaluates to. *)
Inductive jsval : Type :=
| undefined
| value (j : json).

(** The entries as the [map] of [reader.onload] builds them: nothing checks
    that [defaultMessage] is a string. *)
Record RawEntry : Type := mkRaw {
  raw_id : jsstring;
  raw_key : jsstring;
  raw_defaultMessage : jsval
}.

(** The elements of an array (or the characters of a string) under their
    index names "0", "1", ... *)
Definition indexed {A : Type} (l : list A) : list (jsstring * A) :=
  combine (List.map (fun i => toString (Z.of_nat i)) (seq 0 (List.length l))) l.

(** [Object.entries(j)]; [None] is the TypeError for [null].  A number or a
    boolean has no own enumerable property. *)
Definition Object_entries (j : json) : option (list (jsstring * json)) :=
  match j with
  | JNull => None
  | JObj props => Some props
  | JArr l => Some (indexed l)
  | JStr s => Some (indexed (List.map (fun c => JStr [c]) s))
  | JNum _ | JBool _ => Some []
  end.

(** [v.defaultMessage]; [None] is the TypeError for [null].  Arrays, strings,
    numbers and booleans have no such property. *)
Definition get_defaultMessage (v : json) : option jsval :=
  match v with
  | JNull => None
  | JObj props =>
      match own_lookup props (js "defaultMessage") with
      | Some x => Some (value x)
      | None => Some undefined
      end
  | _ => Some undefined
  end.

(** [l.map(f)] for a callback that may throw. *)
Fixpoint map_throwing {A B : Type} (f : A -> option B) (l : list A)
  : option (list B) :=
  match l with
  | [] => Some []
  | a :: t =>
      match f a with
      | None => None
      | Some b =>
          match map_throwing f t with
          | None => None
          | Some t' => Some (b :: t')
          end
      end
  end.

(** The callback of the [map]: [([key, value]) => ({ id: key, key: key,
    defaultMessage: value.defaultMessage })]. *)
Definition raw_entry_of (p : jsstring * json) : option RawEntry :=
  match get_defaultMessage (snd p) with
  | Some d => Some (mkRaw (fst p) (fst p) d)
  | None => None
  end.

(** What one run of [reader.onload] does: the calls of the state setters it
    made, and the message of the [alert] of its [catch] block. *)
Record Effects : Type := mkEffects {
  setOriginalData : option json;
  setTranslationEntries : option (list RawEntry);
  alert : option jsstring
}.

Definition alert_text : jsstring := js "Error al procesar el archivo JSON".

Definition reader_onload (result : jsstring) : Effects :=
  match JSON.parse result with
  | None =>
      (* JSON.parse threw: no setter was called *)
      {| setOriginalData := None; setTranslationEntries := None;
         alert := Some alert_text |}
  | Some jsonData =>
      (* setOriginalData(jsonData) has been called *)
      match Object_entries jsonData with
      | None =>
          {| setOriginalData := Some jsonData; setTranslationEntries := None;
             alert := Some alert_text |}
      | Some props =>
          match map_throwing raw_entry_of props with
          | None =>
              {| setOriginalData := Some jsonData; setTranslationEntries := None;
                 alert := Some alert_text |}
          | Some entries =>
              {| setOriginalData := Some jsonData;
                 setTranslationEntries := Some entries;
                 alert := None |}
          end
      end
  end.

(** ** The state as the component holds it *)

(** The hooks hold what the setters were given, whatever the declared types
    say: [originalData] is the parsed JSON value with all its members, and
    the [defaultMessage] of a row is what [value.defaultMessage] was. *)
Record Stored : Type := mkStored {
  stored_translationEntries : list RawEntry;
  stored_originalData : json;
  stored_fileName : jsstring;
  stored_isDownloadModalOpen : bool;
  stored_downloadFileName : jsstring
}.

Definition setFileName (n : jsstring) (s : Stored) : Stored :=
  {| stored_translationEntries := stored_translationEntries s;
     stored_originalData := stored_originalData s;
     stored_fileName := n;
     stored_isDownloadModalOpen := stored_isDownloadModalOpen s;
     stored_downloadFileName := stored_downloadFileName s |}.

(** The state after the setter calls of [e] took effect: a setter that was
    called replaces its hook's value, the other hooks keep theirs. *)
Definition commit (s : Stored) (e : Effects) : Stored :=
  {| stored_translationEntries :=
       match setTranslationEntries e with
       | Some entries => entries
       | None => stored_translationEntries s
       end;
     stored_originalData :=
       match setOriginalData e with
       | Some jsonData => jsonData
       | None => stored_originalData s
       end;
     stored_fileName := stored_fileName s;
     stored_isDownloadModalOpen := stored_isDownloadModalOpen s;
     stored_downloadFileName := stored_downloadFileName s |}.

(** [handleFileUpload] with a file chosen, after [reader.onload] has run:
    [setFileName(file.name)] first, then the setter calls of the read. *)
Definition import (s : Stored) (f : File) : Stored :=
  commit (setFileName (name f) s) (reader_onload (content f)).

(** ** The state at the declared types *)

(** A stored value read at the type the component declares for it; [None]
    when the value is not of that type.  Of a property value of the snapshot
    the component only ever reads the member [defaultMessage], and [Message]
    holds that member alone. *)
Definition as_Message (v : json) : option Message :=
  match v with
  | JObj props =>
      match own_lookup props (js "defaultMessage") with
      | Some (JStr s) => Some (mkMessage s)
      | _ => None
      end
  | _ => None
  end.

Definition as_TranslationData (j : json) : option TranslationData :=
  match j with
  | JObj props =>
      map_throwing (fun p => match as_Message (snd p) with
                             | Some m => Some (fst p, m)
                             | None => None
                             end) props
  | _ => None
  end.

Definition as_TranslationEntry (r : RawEntry) : option TranslationEntry :=
  match raw_defaultMessage r with
  | value (JStr s) => Some (mkEntry (raw_id r) (raw_key r) s)
  | _ => None
  end.

Definition as_State (s : Stored) : option State :=
  match as_TranslationData (stored_originalData s),
        map_throwing as_TranslationEntry (stored_translationEntries s)
  with
  | Some data, Some entries =>
      Some {| translationEntries := entries;
              originalData := data;
              fileName := stored_fileName s;
              isDownloadModalOpen := stored_isDownloadModalOpen s;
              downloadFileName := stored_downloadFileName s |}
  | _, _ => None
  end.

(** The JSON value a message and a [TranslationData] object are written as. *)
Definition json_of_message (m : Message) : json :=
  JObj [(js "defaultMessage", JStr (message_defaultMessage m))].

Definition json_of_data (o : TranslationData) : object json :=
  List.map (fun p => (fst p, json_of_message (snd p))) o.

Definition raw_of_entry (entry : TranslationEntry) : RawEntry :=
  {| raw_id := id entry; raw_key := key entry;
     raw_defaultMessage := value (JStr (defaultMessage entry)) |}.

(** A state of the declared types as the hooks hold it. *)
Definition stored_of (st : State) : Stored :=
  {| stored_translationEntries := List.map raw_of_entry (translationEntries st);
     stored_originalData := JObj (json_of_data (originalData st));
     stored_fileName := fileName st;
     stored_isDownloadModalOpen := isDownloadModalOpen st;
     stored_downloadFileName := downloadFileName st |}.

(** The synchronous part of [handleFileUpload]: with a file chosen, its name
    is displayed and the read is started. *)
Definition handleFileUpload (st : State) (file : option File) : State :=
  match file with
  | Some f =>
      {| translationEntries := translationEntries st;
         originalData := originalData st;
         fileName := name f;
         isDownloadModalOpen := isDownloadModalOpen st;
         downloadFileName := downloadFileName st |}
  | None => st
  end.

(** A whole import on a state of the declared types; [None] when what it
    stored is not of the declared types. *)
Definition upload (st : State) (f : File) : option State :=
  as_State (import (stored_of st) f).

(* ------------------------------------------------------------------ *)
(** * The editable table *)

Definition set_key (e : TranslationEntry) (newKey : jsstring) : TranslationEntry :=
  {| id := id e; key := newKey; defaultMessage := defaultMessage e |}.

Definition set_defaultMessage (e : TranslationEntry) (text : jsstring)
  : TranslationEntry :=
  {| id := id e; key := key e; defaultMessage := text |}.

Definition setTranslationEntries_with
  (f : list TranslationEntry -> list TranslationEntry) (st : State) : State :=
  {| translationEntries := f (translationEntries st);
     originalData := originalData st;
     fileName := fileName st;
     isDownloadModalOpen := isDownloadModalOpen st;
     downloadFileName := downloadFileName st |}.

(** setKey *)
Definition handlePropertyChange (i newKey : jsstring)
  (entries : list TranslationEntry) : list TranslationEntry :=
  List.map (fun entry => if str_eqb (id entry) i then set_key entry newKey
                         else entry) entries.

(** setValue *)
Definition handleTranslationChange (i newTranslation : jsstring)
  (entries : list TranslationEntry) : list TranslationEntry :=
  List.map (fun entry => if str_eqb (id entry) i
                         then set_defaultMessage entry newTranslation
                         else entry) entries.

(** clearValue *)
Definition handleClearTranslation (i : jsstring)
  (entries : list TranslationEntry) : list TranslationEntry :=
  List.map (fun entry => if str_eqb (id entry) i
                         then set_defaultMessage entry []
                         else entry) entries.

(** A string is truthy when it is not empty. *)
Definition truthy (s : jsstring) : bool :=
  match s with [] => false | _ :: _ => true end.

(** clearAllValues: the [onClick] of the column's clear button. *)
Definition clearAllValues (entries : list TranslationEntry)
  : list TranslationEntry :=
  List.map (fun entry => if truthy (defaultMessage entry)
                         then set_defaultMessage entry []
                         else entry) entries.

(** addRow; [now] is the reading of [Date.now()]. *)
Definition addNewTranslation (now : Z) (entries : list TranslationEntry)
  : list TranslationEntry :=
  let newEntry := {| id := toString now; key := []; defaultMessage := [] |} in
  entries ++ [newEntry].

(** ** Derived predicates *)

Definition isNewTranslation (data : TranslationData) (entry : TranslationEntry)
  : bool :=
  negb (hasOwnProperty data (id entry)).

(** [originalData[entry.id]?.defaultMessage]: the text of the own property,
    [None] for [undefined].  A name that is not an own property is looked up
    in [Object.prototype], whose members have no [defaultMessage]. *)
Definition original_defaultMessage (data : TranslationData) (i : jsstring)
  : option jsstring :=
  match own_lookup data i with
  | Some m => Some (message_defaultMessage m)
  | None => None
  end.

(** [x !== s] for a string [s]. *)
Definition strict_neq (x : option jsstring) (s : jsstring) : bool :=
  match x with
  | Some t => negb (str_eqb t s)
  | None => true
  end.

Definition isModified (data : TranslationData) (entry : TranslationEntry)
  : bool :=
  strict_neq (original_defaultMessage data (id entry)) (defaultMessage entry)
  || negb (hasOwnProperty data (id entry)).

Definition is_blank (s : jsstring) : bool := str_eqb (trim s) [].

Definition isEmptyNewEntry (data : TranslationData) (entry : TranslationEntry)
  : bool :=
  isNewTranslation data entry
  && (is_blank (key entry) || is_blank (defaultMessage entry)).

(** ** The predicates on the stored values *)

(** What evaluating an expression gives: a value, or a thrown [TypeError]. *)
Inductive outcome (A : Type) : Type :=
| returns (a : A)
| throws.

Arguments throws {A}.

(** The predicates again, on what the hooks really hold: [originalData] any
    parsed value and the [defaultMessage] of a row any value.  They are the
    first thing the render evaluates for a row (its [className]). *)
Module Untyped.

(** [Object.prototype.hasOwnProperty.call(o, k)].  [null] has no object to
    ask; an array and a string own their indices and ["length"]; a number
    and a boolean own nothing. *)
Definition hasOwnProperty_call (o : json) (k : jsstring) : outcome bool :=
  match o with
  | JNull => throws
  | JObj props => returns (hasOwnProperty props k)
  | JArr l =>
      returns (existsb (str_eqb k) (List.map fst (indexed l))
               || str_eqb k (js "length"))
  | JStr s =>
      returns (existsb (str_eqb k) (List.map fst (indexed s))
               || str_eqb k (js "length"))
  | JNum _ | JBool _ => returns false
  end.

(** [v?.defaultMessage] for a parsed value [v]: only an object can have the
    member. *)
Definition optional_defaultMessage (v : json) : jsval :=
  match v with
  | JObj props =>
      match own_lookup props (js "defaultMessage") with
      | Some x => value x
      | None => undefined
      end
  | _ => undefined
  end.

(** [o[k]?.defaultMessage].  Reading a property of [null] throws.  A name
    that is not an own property of [o] is looked up in the prototype chain,
    whose members (methods, ["length"], the object behind ["__proto__"])
    have no [defaultMessage]; the characters of a string have none either. *)
Definition original_defaultMessage (o : json) (k : jsstring) : outcome jsval :=
  match o with
  | JNull => throws
  | JObj props =>
      returns match own_lookup props k with
              | Some v => optional_defaultMessage v
              | None => undefined
              end
  | JArr l =>
      returns match own_lookup (indexed l) k with
              | Some v => optional_defaultMessage v
              | None => undefined
              end
  | JStr _ | JNum _ | JBool _ => returns undefined
  end.

(** [a !== b].  Values of different types differ.  [None]: both are
    numbers, or both are arrays, or both are objects; then the comparison
    goes by the value of the numbers or by the identity of the objects,
    which a parsed value does not carry here. *)
Definition strict_neq (a b : jsval) : option bool :=
  match a, b with
  | undefined, undefined => Some false
  | value JNull, value JNull => Some false
  | value (JBool x), value (JBool y) => Some (negb (Bool.eqb x y))
  | value (JStr s), value (JStr t) => Some (negb (str_eqb s t))
  | value (JNum _), value (JNum _) => None
  | value (JArr _), value (JArr _) => None
  | value (JObj _), value (JObj _) => None
  | _, _ => Some true
  end.

Definition isNewTranslation (originalData : json) (entry : RawEntry)
  : outcome bool :=
  match hasOwnProperty_call originalData (raw_id entry) with
  | returns own => returns (negb own)
  | throws => throws
  end.

(** The second operand of [||] is evaluated when the first is not true.
    [returns None]: a boolean that [strict_neq] leaves open. *)
Definition isModified (originalData : json) (entry : RawEntry)
  : outcome (option bool) :=
  match original_defaultMessage originalData (raw_id entry) with
  | throws => throws
  | returns a =>
      match strict_neq a (raw_defaultMessage entry) with
      | Some true => returns (Some true)
      | Some false =>
          match hasOwnProperty_call originalData (raw_id entry) with
          | returns own => returns (Some (negb own))
          | throws => throws
          end
      | None =>
          match hasOwnProperty_call originalData (raw_id entry) with
          | returns own => returns (if own then None else Some true)
          | throws => throws
          end
      end
  end.

(** [v.trim() === ''].  Only a string has the method [trim]: calling it on
    any other value throws. *)
Definition trim_is_empty (v : jsval) : outcome bool :=
  match v with
  | value (JStr s) => returns (is_blank s)
  | _ => throws
  end.

(** [&&] and [||] evaluate their second operand only when needed. *)
Definition isEmptyNewEntry (originalData : json) (entry : RawEntry)
  : outcome bool :=
  match isNewTranslation originalData entry with
  | throws => throws
  | returns false => returns false
  | returns true =>
      if is_blank (raw_key entry) then returns true
      else trim_is_empty (raw_defaultMessage entry)
  end.

End Untyped.

(* ------------------------------------------------------------------ *)
(** * Export *)

Definition handleDownloadClick (st : State) : State :=
  {| translationEntries := translationEntries st;
     originalData := originalData st;
     fileName := fileName st;
     isDownloadModalOpen := true;
     downloadFileName :=
       match replace_first (js ".json") (fileName st) with
       | [] => js "translations"
       | proposed => proposed
       end |}.

(** The export set. *)
Definition validEntries (data : TranslationData)
  (entries : list TranslationEntry) : list TranslationEntry :=
  filter (fun entry =>
            negb (isNewTranslation data entry)
            || (negb (is_blank (key entry))
                && negb (is_blank (defaultMessage entry)))) entries.

(** The callback of the [reduce]:
    [acc[entry.key] = { defaultMessage: entry.defaultMessage }; return acc]. *)
Definition reduce_step (acc : TranslationData) (entry : TranslationEntry)
  : TranslationData :=
  assign acc (key entry) (mkMessage (defaultMessage entry)).

(** The [reduce] over the export set, from the empty object. *)
Definition translationsObject (data : TranslationData)
  (entries : list TranslationEntry) : TranslationData :=
  fold_left reduce_step (validEntries data entries) [].

(** The file handed to the browser: [link.download] and the blob's text. *)
Record Download : Type := mkDownload {
  download : jsstring;
  dataStr : jsstring
}.

Definition finalFileName (chosen : jsstring) : jsstring :=
  replace_at_end (js ".json") chosen ++ js ".json".

Definition downloadJSON (st : State) : State * Download :=
  ({| translationEntries := translationEntries st;
      originalData := originalData st;
      fileName := fileName st;
      isDownloadModalOpen := false;
      downloadFileName := downloadFileName st |},
   {| download := finalFileName (downloadFileName st);
      dataStr := stringify (translationsObject (originalData st)
                                               (translationEntries st)) |}).


(* ------------------------------------------------------------------ *)
(** * Sequences of user actions *)

(** What the user can do with the mounted component. *)
Inductive Action : Type :=
| Upload (f : File)                       (* pick a file; it is read *)
| SetKey (i newKey : jsstring)            (* type in a key field *)
| SetValue (i newTranslation : jsstring)  (* type in a translation field *)
| ClearValue (i : jsstring)               (* the clear button of a row *)
| ClearAll                                (* the clear button of the column *)
| AddRow (now : Z)                        (* the add button, at time [now] *)
| DownloadClick                           (* open the file name dialog *)
| TypeFileName (chosen : jsstring)        (* type in the dialog *)
| Cancel                                  (* close the dialog *)
| Confirm.                                (* the dialog's download button *)

Definition setDownloadFileName (chosen : jsstring) (st : State) : State :=
  {| translationEntries := translationEntries st;
     originalData := originalData st;
     fileName := fileName st;
     isDownloadModalOpen := isDownloadModalOpen st;
     downloadFileName := chosen |}.

Definition setIsDownloadModalOpen (b : bool) (st : State) : State :=
  {| translationEntries := translationEntries st;
     originalData := originalData st;
     fileName := fileName st;
     isDownloadModalOpen := b;
     downloadFileName := downloadFileName st |}.

(** One action; [None] when an upload stored values outside the declared
    types (see [as_State]). *)
Definition act (st : State) (a : Action) : option State :=
  match a with
  | Upload f => upload st f
  | SetKey i k => Some (setTranslationEntries_with (handlePropertyChange i k) st)
  | SetValue i v =>
      Some (setTranslationEntries_with (handleTranslationChange i v) st)
  | ClearValue i => Some (setTranslationEntries_with (handleClearTranslation i) st)
  | ClearAll => Some (setTranslationEntries_with clearAllValues st)
  | AddRow now => Some (setTranslationEntries_with (addNewTranslation now) st)
  | DownloadClick => Some (handleDownloadClick st)
  | TypeFileName chosen => Some (setDownloadFileName chosen st)
  | Cancel => Some (setIsDownloadModalOpen false st)
  | Confirm => Some (fst (downloadJSON st))
  end.

Fixpoint run (st : State) (actions : list Action) : option State :=
  match actions with
  | [] => Some st
  | a :: rest =>
      match act st a with
      | Some st' => run st' rest
      | None => None
      end
  end.

(** Every [AddRow] of the sequence happens at a time whose decimal text is
    not the id of a row of the table at that moment. *)
Fixpoint clocks_fresh (st : State) (actions : list Action) : Prop :=
  match actions with
  | [] => True
  | a :: rest =>
      match a with
      | AddRow now => ~ In (toString now) (List.map id (translationEntries st))
      | _ => True
      end
      /\ match act st a with
         | Some st' => clocks_fresh st' rest
         | None => True
         end
  end.

(* ------------------------------------------------------------------ *)
(** * Vocabulary of the statements *)

(** The row [reader.onload] makes of a property of the parsed object. *)
Definition entry_of (p : jsstring * Message) : TranslationEntry :=
  {| id := fst p; key := fst p;
     defaultMessage := message_defaultMessage (snd p) |}.


(** The last entry of a list that has the key [k]. *)
Fixpoint last_with_key (k : jsstring) (l : list TranslationEntry)
  : option TranslationEntry :=
  match l with
  | [] => None
  | e :: t =>
      match last_with_key k t with
      | Some x => Some x
      | None => if str_eqb (key e) k then Some e else None
      end
  end.

(** [precedes k1 k2]: a property named [k1] may be enumerated before one
    named [k2]: array indices in ascending order, and before other names. *)
Definition precedes (k1 k2 : jsstring) : Prop :=
  match array_index k1, array_index k2 with
  | Some a, Some b => (a <= b)%N
  | Some _, None => True
  | None, Some _ => False
  | None, None => True
  end.

(** The names are listed as an object enumerates them. *)
Definition in_enumeration_order (ks : list jsstring) : Prop :=
  ForallOrdPairs precedes ks.

Definition define_step (acc : object json) (p : jsstring * json) : object json :=
  define acc (fst p) (snd p).

(** What follows a property: the next ones after a comma, or nothing. *)
Definition separator (t : TranslationData) : jsstring :=
  match t with
  | [] => []
  | _ :: _ => 44%N :: 10%N :: stringify_properties t
  end.

(* ------------------------------------------------------------------ *)
(** * What is rendered *)

(** The clear button of the column is rendered when
    [translationEntries.some(entry => entry.defaultMessage)]. *)
Definition showClearAll (entries : list TranslationEntry) : bool :=
  existsb (fun entry => truthy (defaultMessage entry)) entries.

(** The clear button of a row is rendered when [entry.defaultMessage] is
    truthy. *)
Definition showClearButton (entry : TranslationEntry) : bool :=
  truthy (defaultMessage entry).

(** The background of a row: [bg-green-50], [bg-blue-50] or none. *)
Inductive Background : Type := green | blue | plain.

Definition rowBackground (data : TranslationData) (entry : TranslationEntry)
  : Background :=
  if isNewTranslation data entry then green
  else if isModified data entry then blue
  else plain.

(** A row is rendered with [opacity-50] when [isEmptyNewEntry(entry)]. *)
Definition rowDimmed (data : TranslationData) (entry : TranslationEntry)
  : bool :=
  isEmptyNewEntry data entry.

(** ** More vocabulary *)

(** The ids of the rows the [AddRow]s of a sequence append, in order. *)
Fixpoint clocks (actions : list Action) : list Z :=
  match actions with
  | [] => []
  | AddRow now :: rest => now :: clocks rest
  | _ :: rest => clocks rest
  end.

Definition is_upload (a : Action) : bool :=
  match a with Upload _ => true | _ => false end.

(** The property names of the object a file holds, if it holds one. *)
Definition file_keys (f : File) : list jsstring :=
  match JSON.parse (content f) with
  | Some (JObj props) => keys props
  | _ => []
  end.

(** The document of a state: what the dialog's fields are not. *)
Definition document (st : State)
  : list TranslationEntry * TranslationData * jsstring :=
  (translationEntries st, originalData st, fileName st).

(** The property names an assignment [acc[k] = v] can create. *)
Definition not_proto (k : jsstring) : bool := negb (str_eqb k (js "__proto__")).

(** [e] is in the export set of the snapshot [data]. *)
Definition exported (data : TranslationData) (e : TranslationEntry) : Prop :=
  isNewTranslation data e = false
  \/ (trim (key e) <> [] /\ trim (defaultMessage e) <> []).

(** Whether a name is an array index. *)
Definition is_index (k : jsstring) : bool :=
  match array_index k with Some _ => true | None => false end.

(** [index_lt k1 k2]: both names are array indices, the first the smaller. *)
Definition index_lt (k1 k2 : jsstring) : Prop :=
  match array_index k1, array_index k2 with
  | Some a, Some b => (a < b)%N
  | _, _ => False
  end.

(** A list of names without the later occurrences of a name: the order in
    which assignments in the order of the list create the properties. *)
Fixpoint first_occurrences (ks : list jsstring) : list jsstring :=
  match ks with
  | [] => []
  | k :: t => k :: filter (fun k' => negb (str_eqb k' k)) (first_occurrences t)
  end.

(* ================================================================== *)
(** * Lemmas *)

(** ** Strings *)

Arguments js : simpl never.
Arguments json_text : simpl never.

Lemma str_eqb_eq (a b : jsstring) : str_eqb a b = true <-> a = b.
Proof.
  revert b; induction a as [|x a IH]; intros [|y b]; simpl;
    try (split; [discriminate | congruence]); try tauto.
  rewrite andb_true_iff, N.eqb_eq, IH.
  split; [intros [-> ->]; reflexivity | intros H; injection H; auto].
Qed.

Lemma str_eqb_refl (a : jsstring) : str_eqb a a = true.
Proof. apply str_eqb_eq; reflexivity. Qed.

Lemma str_eqb_neq (a b : jsstring) : str_eqb a b = false <-> a <> b.
Proof.
  rewrite <- str_eqb_eq. destruct (str_eqb a b); split; congruence.
Qed.

Lemma str_eqb_sym (a b : jsstring) : str_eqb a b = str_eqb b a.
Proof.
  destruct (str_eqb a b) eqn:E; symmetry.
  - apply str_eqb_eq. apply str_eqb_eq in E. congruence.
  - apply str_eqb_neq. apply str_eqb_neq in E. congruence.
Qed.

(** ** The table operations leave rows with another id alone *)

Lemma map_id_when_unmatched (f : TranslationEntry -> TranslationEntry)
  (i : jsstring) (entries : list TranslationEntry) :
  ~ In i (List.map id entries) ->
  List.map (fun entry => if str_eqb (id entry) i then f entry else entry) entries
  = entries.
Proof.
  induction entries as [|e l IH]; simpl; intros H; [reflexivity|].
  destruct (str_eqb (id e) i) eqn:E.
  - exfalso. apply H. left. apply str_eqb_eq; assumption.
  - f_equal. apply IH. tauto.
Qed.

(** ** File names *)

Lemma strip_prefix_spec (p s r : jsstring) :
  strip_prefix p s = Some r <-> s = p ++ r.
Proof.
  revert s; induction p as [|x p IH]; intros s; simpl.
  - split; congruence.
  - destruct s as [|y s]; [split; discriminate|].
    destruct (N.eqb_spec x y) as [->|Hxy].
    + rewrite IH. split; [intros ->; reflexivity | intros H; injection H; auto].
    + split; [discriminate | intros H; injection H; intros; congruence].
Qed.

Lemma replace_at_end_suffix (p base : jsstring) :
  replace_at_end p (base ++ p) = base.
Proof.
  unfold replace_at_end. rewrite rev_app_distr.
  destruct (strip_prefix (rev p) (rev p ++ rev base)) as [r|] eqn:E.
  - apply strip_prefix_spec in E. apply app_inv_head in E. subst r.
    apply rev_involutive.
  - assert (H : strip_prefix (rev p) (rev p ++ rev base) = Some (rev base))
      by (apply strip_prefix_spec; reflexivity).
    congruence.
Qed.

Lemma replace_at_end_other (p s : jsstring) :
  (forall base, s <> base ++ p) -> replace_at_end p s = s.
Proof.
  intros H. unfold replace_at_end.
  destruct (strip_prefix (rev p) (rev s)) as [r|] eqn:E; [|reflexivity].
  apply strip_prefix_spec in E. exfalso. apply (H (rev r)).
  rewrite <- (rev_involutive s), E, rev_app_distr, rev_involutive. reflexivity.
Qed.

Lemma replace_first_found (p a b : jsstring) :
  (forall a' b', a ++ p ++ b = a' ++ p ++ b' -> List.length a <= List.length a') ->
  replace_first p (a ++ p ++ b) = a ++ b.
Proof.
  induction a as [|c a IH]; intros Hmin.
  - simpl app.
    assert (H : strip_prefix p (p ++ b) = Some b)
      by (apply strip_prefix_spec; reflexivity).
    destruct p, b; simpl in *; rewrite ?H; try reflexivity; now rewrite H.
  - simpl app. simpl replace_first.
    destruct (strip_prefix p (c :: a ++ p ++ b)) as [r|] eqn:E.
    + apply strip_prefix_spec in E.
      specialize (Hmin [] r). simpl in Hmin. specialize (Hmin E). lia.
    + f_equal. apply IH. intros a' b' H.
      specialize (Hmin (c :: a') b'). simpl in Hmin.
      rewrite H in Hmin. specialize (Hmin eq_refl). lia.
Qed.


(** ** Objects *)

Section ObjectFacts.
Variable V : Type.
Implicit Types (o : object V) (k : jsstring) (v : V).

Lemma own_lookup_app o o' k :
  own_lookup (o ++ o') k
  = match own_lookup o k with Some v => Some v | None => own_lookup o' k end.
Proof.
  induction o as [|[k' v'] o IH]; simpl; [reflexivity|].
  destruct (str_eqb k' k); auto.
Qed.

Lemma own_lookup_None o k : own_lookup o k = None <-> ~ In k (keys o).
Proof.
  induction o as [|[k' v'] o IH]; simpl; [tauto|].
  destruct (str_eqb k' k) eqn:E.
  - apply str_eqb_eq in E. split; [discriminate | tauto].
  - apply str_eqb_neq in E. rewrite IH. tauto.
Qed.

Lemma hasOwnProperty_In o k : hasOwnProperty o k = true <-> In k (keys o).
Proof.
  unfold hasOwnProperty. destruct (own_lookup o k) eqn:E.
  - split; [intros _|reflexivity].
    destruct (in_dec (list_eq_dec N.eq_dec) k (keys o)) as [H|H]; [exact H|].
    apply own_lookup_None in H. congruence.
  - apply own_lookup_None in E. split; [discriminate | tauto].
Qed.

Lemma hasOwnProperty_false o k : hasOwnProperty o k = false <-> ~ In k (keys o).
Proof.
  rewrite <- hasOwnProperty_In. destruct (hasOwnProperty o k); split; congruence.
Qed.

Lemma keys_overwrite o k v : keys (overwrite o k v) = keys o.
Proof.
  induction o as [|[k' v'] o IH]; simpl; [reflexivity|].
  destruct (str_eqb k' k); simpl; [reflexivity | f_equal; exact IH].
Qed.

Lemma own_lookup_overwrite o k v k' :
  own_lookup (overwrite o k v) k'
  = if str_eqb k k'
    then match own_lookup o k with Some _ => Some v | None => None end
    else own_lookup o k'.
Proof.
  induction o as [|[k0 v0] o IH]; simpl.
  - destruct (str_eqb k k'); reflexivity.
  - destruct (str_eqb k0 k) eqn:E0; simpl.
    + apply str_eqb_eq in E0. subst k0.
      destruct (str_eqb k k'); reflexivity.
    + destruct (str_eqb k0 k') eqn:E1.
      * apply str_eqb_eq in E1. subst k0.
        rewrite str_eqb_sym, E0. reflexivity.
      * exact IH.
Qed.

(** A created property is found under its name, and hides no other. *)
Lemma In_insert_index n k v o x :
  In x (insert_index n k v o) <-> x = (k, v) \/ In x o.
Proof.
  induction o as [|[k0 v0] o IH]; simpl; [intuition congruence|].
  destruct (array_index k0) as [m|]; [destruct (n <? m)%N|]; simpl;
    rewrite ?IH; intuition congruence.
Qed.

Lemma keys_insert_index n k v o x :
  In x (keys (insert_index n k v o)) <-> x = k \/ In x (keys o).
Proof.
  unfold keys. rewrite !in_map_iff. split.
  - intros [[k0 v0] [<- H]]. apply In_insert_index in H.
    destruct H as [H|H]; [injection H; intros; subst; auto|].
    right. exists (k0, v0). auto.
  - intros [->|[[k0 v0] [<- H]]].
    + exists (k, v). split; [reflexivity|]. apply In_insert_index. auto.
    + exists (k0, v0). split; [reflexivity|]. apply In_insert_index. auto.
Qed.

Lemma own_lookup_insert_index n k v o k' :
  ~ In k (keys o) ->
  own_lookup (insert_index n k v o) k'
  = if str_eqb k k' then Some v else own_lookup o k'.
Proof.
  induction o as [|[k0 v0] o IH]; simpl; intros H.
  - reflexivity.
  - assert (E0 : str_eqb k0 k = false) by (apply str_eqb_neq; tauto).
    destruct (array_index k0) as [m|]; [destruct (n <? m)%N|]; simpl;
      try reflexivity.
    destruct (str_eqb k0 k') eqn:E1.
    + apply str_eqb_eq in E1. subst k0. rewrite str_eqb_sym, E0. reflexivity.
    + apply IH. tauto.
Qed.

Lemma own_lookup_create o k v k' :
  ~ In k (keys o) ->
  own_lookup (create o k v) k' = if str_eqb k k' then Some v else own_lookup o k'.
Proof.
  intros H. unfold create. destruct (array_index k) as [n|].
  - apply own_lookup_insert_index; assumption.
  - rewrite own_lookup_app. simpl.
    destruct (own_lookup o k') eqn:E; [|reflexivity].
    destruct (str_eqb k k') eqn:E1; [|reflexivity].
    apply str_eqb_eq in E1. subst k'. apply own_lookup_None in H. congruence.
Qed.

Lemma keys_create o k v x :
  In x (keys (create o k v)) <-> x = k \/ In x (keys o).
Proof.
  unfold create. destruct (array_index k) as [n|].
  - apply keys_insert_index.
  - unfold keys. rewrite map_app, in_app_iff. simpl. intuition congruence.
Qed.

Lemma own_lookup_define o k v k' :
  own_lookup (define o k v) k' = if str_eqb k k' then Some v else own_lookup o k'.
Proof.
  unfold define. destruct (hasOwnProperty o k) eqn:E.
  - rewrite own_lookup_overwrite. unfold hasOwnProperty in E.
    destruct (own_lookup o k); [reflexivity | discriminate].
  - apply own_lookup_create. apply hasOwnProperty_false. exact E.
Qed.

(** An assignment to ["__proto__"] creates nothing; any other assignment
    makes the value the own property of that name. *)
Lemma own_lookup_assign o k v k' :
  own_lookup (assign o k v) k'
  = if str_eqb k k'
    then if hasOwnProperty o k || negb (str_eqb k (js "__proto__"))
         then Some v else None
    else own_lookup o k'.
Proof.
  unfold assign. destruct (hasOwnProperty o k) eqn:E; simpl.
  - rewrite own_lookup_overwrite. unfold hasOwnProperty in E.
    destruct (own_lookup o k); [reflexivity | discriminate].
  - destruct (str_eqb k (js "__proto__")) eqn:P; simpl.
    + destruct (str_eqb k k') eqn:E1; [|reflexivity].
      apply str_eqb_eq in E1. subst k'. unfold hasOwnProperty in E.
      destruct (own_lookup o k); [discriminate | reflexivity].
    + apply own_lookup_create. apply hasOwnProperty_false. exact E.
Qed.

(** *** Names stay distinct *)

Lemma NoDup_insert_index n k v o :
  ~ In k (keys o) -> NoDup (keys o) -> NoDup (keys (insert_index n k v o)).
Proof.
  induction o as [|[k0 v0] o IH]; simpl; intros Hk Hnd.
  - constructor; [tauto | constructor].
  - inversion Hnd as [|? ? Hk0 Hnd']; subst.
    assert (Hins : NoDup (k0 :: keys (insert_index n k v o))).
    { constructor; [|apply IH; tauto].
      rewrite keys_insert_index. intros [->|H]; tauto. }
    destruct (array_index k0) as [m|]; [destruct (n <? m)%N|]; simpl;
      try exact Hins; constructor; simpl; tauto.
Qed.

Lemma NoDup_create o k v :
  ~ In k (keys o) -> NoDup (keys o) -> NoDup (keys (create o k v)).
Proof.
  intros Hk Hnd. unfold create. destruct (array_index k) as [n|].
  - apply NoDup_insert_index; assumption.
  - unfold keys. rewrite map_app. simpl.
    apply NoDup_app; [exact Hnd | constructor; [tauto | constructor] |].
    intros x Hx [<-|[]]. tauto.
Qed.

Lemma NoDup_define o k v : NoDup (keys o) -> NoDup (keys (define o k v)).
Proof.
  intros H. unfold define. destruct (hasOwnProperty o k) eqn:E.
  - rewrite keys_overwrite. exact H.
  - apply NoDup_create; [apply hasOwnProperty_false|]; assumption.
Qed.

End ObjectFacts.

(** ** The exporter *)

Lemma hasOwnProperty_assign (acc : TranslationData) k v k' :
  hasOwnProperty (assign acc k v) k'
  = if str_eqb k k'
    then hasOwnProperty acc k || negb (str_eqb k (js "__proto__"))
    else hasOwnProperty acc k'.
Proof.
  unfold hasOwnProperty at 1. rewrite own_lookup_assign.
  destruct (str_eqb k k'); [|reflexivity].
  destruct (hasOwnProperty acc k || negb (str_eqb k (js "__proto__"))); reflexivity.
Qed.

Lemma own_lookup_reduce (l : list TranslationEntry) (acc : TranslationData)
  (k : jsstring) :
  own_lookup (fold_left reduce_step l acc) k
  = match last_with_key k l with
    | Some e =>
        if hasOwnProperty acc k || negb (str_eqb k (js "__proto__"))
        then Some (mkMessage (defaultMessage e)) else None
    | None => own_lookup acc k
    end.
Proof.
  revert acc; induction l as [|e l IH]; intros acc; simpl; [reflexivity|].
  rewrite IH. unfold reduce_step.
  rewrite hasOwnProperty_assign, own_lookup_assign.
  destruct (str_eqb (key e) k) eqn:E.
  - apply str_eqb_eq in E. subst k.
    destruct (last_with_key (key e) l) as [x|];
      destruct (hasOwnProperty acc (key e));
      destruct (str_eqb (key e) (js "__proto__")); reflexivity.
  - destruct (last_with_key k l) as [x|]; reflexivity.
Qed.

(** ** JSON.parse: fuel and shape of the result *)

Ltac break_in H :=
  match type of H with
  | context [match ?x with _ => _ end] => destruct x eqn:?; try discriminate H
  end.

Lemma skip_ws_length (s : jsstring) : List.length (skip_ws s) <= List.length s.
Proof.
  induction s as [|c s IH]; simpl; [lia|].
  destruct (is_json_ws c); simpl; lia.
Qed.

Lemma skip_ws_cons (s : jsstring) c r :
  skip_ws s = c :: r -> List.length r < List.length s.
Proof.
  intros H. pose proof (skip_ws_length s) as L. rewrite H in L. simpl in L. lia.
Qed.

Lemma skip_ws_idempotent (s : jsstring) : skip_ws (skip_ws s) = skip_ws s.
Proof.
  induction s as [|c s IH]; simpl; [reflexivity|].
  destruct (is_json_ws c) eqn:E; [exact IH|]. simpl. now rewrite E.
Qed.

Lemma parse_chars_length (s str rest : jsstring) :
  parse_chars s = Some (str, rest) -> List.length rest < List.length s.
Proof.
  assert (Hle : List.length s <= List.length s) by lia.
  revert Hle. generalize (List.length s) at 2 as n. intros n.
  revert s str rest.
  induction n as [|n IH]; intros s str rest Hle H.
  - destruct s; [discriminate H | simpl in Hle; lia].
  - destruct s as [|c r]; [discriminate H|]. simpl in H, Hle.
    assert (step : forall u t, List.length t <= n ->
              cons_unit u (parse_chars t) = Some (str, rest) ->
              List.length rest < List.length t).
    { intros u t Ht Hc. unfold cons_unit in Hc.
      destruct (parse_chars t) as [[str' rest']|] eqn:E; [|discriminate Hc].
      injection Hc as _ <-. eapply IH; eauto. }
    destruct (c =? 34)%N.
    { injection H as _ <-. simpl. lia. }
    destruct (c =? 92)%N.
    { destruct r as [|e r1]; [discriminate H|].
      destruct (e =? 117)%N.
      - destruct r1 as [|h1 [|h2 [|h3 [|h4 r2]]]]; try discriminate H.
        destruct (hex4 h1 h2 h3 h4); [|discriminate H].
        apply step in H; simpl in *; lia.
      - destruct (simple_escape e); [|discriminate H].
        apply step in H; simpl in *; lia. }
    destruct (c <? 32)%N; [discriminate H|].
    apply step in H; simpl in *; lia.
Qed.

Lemma span_digits_length (s ds r : jsstring) :
  span_digits s = (ds, r) -> List.length r <= List.length s.
Proof.
  revert ds r; induction s as [|c s IH]; simpl; intros ds r H.
  - injection H as _ <-. simpl; lia.
  - destruct (is_digit c).
    + destruct (span_digits s) as [ds' r'] eqn:E. injection H as _ <-.
      specialize (IH _ _ eq_refl). lia.
    + injection H as _ <-. simpl; lia.
Qed.

Lemma parse_number_length (s lit rest : jsstring) :
  parse_number s = Some (lit, rest) -> List.length rest < List.length s.
Proof.
  unfold parse_number. intros H.
  destruct (match s with
            | [] => ([], s)
            | c :: t => if (c =? 45)%N then ([c], t) else ([], s)
            end) as [sign s1] eqn:Es.
  assert (L1 : List.length s1 <= List.length s).
  { destruct s as [|c t]; [injection Es as _ <-; lia|].
    destruct (c =? 45)%N; injection Es as _ <-; simpl; lia. }
  destruct (parse_int s1) as [[i s2]|] eqn:Ei; [|discriminate H].
  assert (L2 : List.length s2 < List.length s1).
  { unfold parse_int in Ei. destruct s1 as [|c t]; [discriminate Ei|].
    destruct (c =? 48)%N; [injection Ei as _ <-; simpl; lia|].
    destruct (is_digit c); [|discriminate Ei].
    destruct (span_digits t) as [ds r] eqn:E. injection Ei as _ <-.
    apply span_digits_length in E. simpl; lia. }
  destruct (parse_frac s2) as [[f s3]|] eqn:Ef; [|discriminate H].
  assert (L3 : List.length s3 <= List.length s2).
  { unfold parse_frac in Ef. destruct s2 as [|c t]; [injection Ef as _ <-; lia|].
    destruct (c =? 46)%N; [|injection Ef as _ <-; lia].
    destruct (span_digits t) as [ds r] eqn:E.
    apply span_digits_length in E.
    destruct ds; [discriminate Ef|]. injection Ef as _ <-. simpl; lia. }
  destruct (parse_exp s3) as [[e s4]|] eqn:Ee; [|discriminate H].
  assert (L4 : List.length s4 <= List.length s3).
  { unfold parse_exp in Ee. destruct s3 as [|c t]; [injection Ee as _ <-; lia|].
    destruct ((c =? 101) || (c =? 69))%N; [|injection Ee as _ <-; lia].
    destruct (match t with
              | [] => ([], t)
              | d :: u => if ((d =? 43) || (d =? 45))%N then ([d], u) else ([], t)
              end) as [sg t'] eqn:Et.
    assert (List.length t' <= List.length t).
    { destruct t as [|d u]; [injection Et as _ <-; lia|].
      destruct ((d =? 43) || (d =? 45))%N; injection Et as _ <-; simpl; lia. }
    destruct (span_digits t') as [ds r] eqn:E.
    apply span_digits_length in E.
    destruct ds; [discriminate Ee|]. injection Ee as _ <-. simpl; lia. }
  injection H as _ <-. lia.
Qed.

Lemma parse_word_length (w : string) (v : json) (s : jsstring) res :
  w <> EmptyString ->
  parse_word w v s = Some res -> List.length (snd res) < List.length s.
Proof.
  intros Hw H. unfold parse_word in H.
  destruct (strip_prefix (js w) s) as [r|] eqn:E; [|discriminate H].
  injection H as <-. simpl. apply strip_prefix_spec in E. subst s.
  rewrite length_app. destruct w; [congruence|]. unfold js. simpl. lia.
Qed.

(** If the parsers called inside a step consume input, and their results
    are also results of the primed parsers, then so for the step. *)
Lemma value_step_sound
  (members members' : jsstring -> object json -> result)
  (elements elements' : jsstring -> list json -> result)
  (s : jsstring) (res : json * jsstring) :
  (forall s' acc res', List.length s' < List.length s ->
     members s' acc = Some res' ->
     List.length (snd res') < List.length s' /\ members' s' acc = Some res') ->
  (forall s' acc res', List.length s' < List.length s ->
     elements s' acc = Some res' ->
     List.length (snd res') < List.length s' /\ elements' s' acc = Some res') ->
  value_step members elements s = Some res ->
  List.length (snd res) < List.length s
  /\ value_step members' elements' s = Some res.
Proof.
  intros Hm He H. unfold value_step in *.
  destruct (skip_ws s) as [|c r] eqn:E0; [discriminate H|].
  apply skip_ws_cons in E0.
  destruct (c =? 123)%N.
  { destruct (skip_ws r) as [|d r'] eqn:E1; [discriminate H|].
    pose proof (skip_ws_cons _ E1) as L1.
    destruct (d =? 125)%N.
    - injection H as <-. simpl. split; [lia | reflexivity].
    - apply Hm in H; [|simpl; lia]. simpl in H. split; [lia | tauto]. }
  destruct (c =? 91)%N.
  { destruct (skip_ws r) as [|d r'] eqn:E1; [discriminate H|].
    pose proof (skip_ws_cons _ E1) as L1.
    destruct (d =? 93)%N.
    - injection H as <-. simpl. split; [lia | reflexivity].
    - apply He in H; [|simpl; lia]. simpl in H. split; [lia | tauto]. }
  destruct (c =? 34)%N.
  { destruct (parse_chars r) as [[str rest]|] eqn:E1; [|discriminate H].
    apply parse_chars_length in E1. injection H as <-. simpl.
    split; [lia | reflexivity]. }
  split; [|exact H].
  destruct (c =? 116)%N.
  { apply parse_word_length in H; [simpl in H; lia | discriminate]. }
  destruct (c =? 102)%N.
  { apply parse_word_length in H; [simpl in H; lia | discriminate]. }
  destruct (c =? 110)%N.
  { apply parse_word_length in H; [simpl in H; lia | discriminate]. }
  destruct (parse_number (c :: r)) as [[lit rest]|] eqn:E1; [|discriminate H].
  apply parse_number_length in E1. injection H as <-. simpl in *. lia.
Qed.

Lemma members_step_sound
  (value value' : jsstring -> result)
  (members members' : jsstring -> object json -> result)
  (s : jsstring) (acc : object json) (res : json * jsstring) :
  (forall s' res', List.length s' < List.length s ->
     value s' = Some res' ->
     List.length (snd res') < List.length s' /\ value' s' = Some res') ->
  (forall s' acc' res', List.length s' < List.length s ->
     members s' acc' = Some res' ->
     List.length (snd res') < List.length s' /\ members' s' acc' = Some res') ->
  members_step value members s acc = Some res ->
  List.length (snd res) < List.length s
  /\ members_step value' members' s acc = Some res.
Proof.
  intros Hv Hm H. unfold members_step in *.
  destruct (skip_ws s) as [|c r] eqn:E0; [discriminate H|].
  apply skip_ws_cons in E0.
  destruct (c =? 34)%N; [|discriminate H].
  destruct (parse_chars r) as [[k r1]|] eqn:E1; [|discriminate H].
  apply parse_chars_length in E1.
  destruct (skip_ws r1) as [|d r2] eqn:E2; [discriminate H|].
  apply skip_ws_cons in E2.
  destruct (d =? 58)%N; [|discriminate H].
  destruct (value r2) as [[v r3]|] eqn:E3; [|discriminate H].
  apply Hv in E3; [|lia]. destruct E3 as [L3 ->]. simpl in L3.
  destruct (skip_ws r3) as [|e r4] eqn:E4; [discriminate H|].
  apply skip_ws_cons in E4.
  destruct (e =? 44)%N.
  { apply Hm in H; [|lia]. split; [lia | tauto]. }
  destruct (e =? 125)%N; [|discriminate H].
  injection H as <-. simpl. split; [lia | reflexivity].
Qed.

Lemma elements_step_sound
  (value value' : jsstring -> result)
  (elements elements' : jsstring -> list json -> result)
  (s : jsstring) (acc : list json) (res : json * jsstring) :
  (forall s' res', List.length s' <= List.length s ->
     value s' = Some res' ->
     List.length (snd res') < List.length s' /\ value' s' = Some res') ->
  (forall s' acc' res', List.length s' < List.length s ->
     elements s' acc' = Some res' ->
     List.length (snd res') < List.length s' /\ elements' s' acc' = Some res') ->
  elements_step value elements s acc = Some res ->
  List.length (snd res) < List.length s
  /\ elements_step value' elements' s acc = Some res.
Proof.
  intros Hv He H. unfold elements_step in *.
  destruct (value s) as [[v r]|] eqn:E0; [|discriminate H].
  apply Hv in E0; [|lia]. destruct E0 as [L0 ->]. simpl in L0.
  destruct (skip_ws r) as [|e r'] eqn:E1; [discriminate H|].
  apply skip_ws_cons in E1.
  destruct (e =? 44)%N.
  { apply He in H; [|lia]. split; [lia | tauto]. }
  destruct (e =? 93)%N; [|discriminate H].
  injection H as <-. simpl. split; [lia | reflexivity].
Qed.

(** A result reached with some fuel is reached with every amount of fuel
    above twice the length of the text: no valid text is refused for want
    of fuel. *)
Lemma parse_fuel (n : nat) :
  (forall s res, parse_value n s = Some res ->
     List.length (snd res) < List.length s
     /\ forall f, 2 * List.length s + 1 <= f -> parse_value f s = Some res)
  /\ (forall s acc res, parse_members n s acc = Some res ->
        List.length (snd res) < List.length s
        /\ forall f, 2 * List.length s <= f -> parse_members f s acc = Some res)
  /\ (forall s acc res, parse_elements n s acc = Some res ->
        List.length (snd res) < List.length s
        /\ forall f, 2 * List.length s + 2 <= f ->
                     parse_elements f s acc = Some res).
Proof.
  induction n as [|n (IHv & IHm & IHe)]; [repeat split; discriminate|].
  repeat split.
  - eapply (@value_step_sound _ (parse_members n) _ (parse_elements n));
      try eassumption; intros; split; auto; [eapply IHm | eapply IHe]; eassumption.
  - intros f Hf. destruct f as [|f]; [lia|]. simpl in *.
    eapply value_step_sound; try eassumption.
    + intros s' acc res' L Hs. destruct (IHm _ _ _ Hs) as [L' Hl].
      split; [exact L' | apply Hl; lia].
    + intros s' acc res' L Hs. destruct (IHe _ _ _ Hs) as [L' Hl].
      split; [exact L' | apply Hl; lia].
  - eapply (@members_step_sound _ (parse_value n) _ (parse_members n));
      try eassumption; intros; split; auto; [eapply IHv | eapply IHm]; eassumption.
  - intros f Hf.
    assert (L : List.length (snd res) < List.length s).
    { eapply (@members_step_sound _ (parse_value n) _ (parse_members n));
        try eassumption; intros; split; auto; [eapply IHv | eapply IHm]; eassumption. }
    destruct f as [|f]; [lia|]. simpl in *.
    eapply members_step_sound; try eassumption.
    + intros s' res' L1 Hs. destruct (IHv _ _ Hs) as [L' Hl].
      split; [exact L' | apply Hl; lia].
    + intros s' acc' res' L1 Hs. destruct (IHm _ _ _ Hs) as [L' Hl].
      split; [exact L' | apply Hl; lia].
  - eapply (@elements_step_sound _ (parse_value n) _ (parse_elements n));
      try eassumption; intros; split; auto; [eapply IHv | eapply IHe]; eassumption.
  - intros f Hf. destruct f as [|f]; [lia|]. simpl in *.
    eapply elements_step_sound; try eassumption.
    + intros s' res' L1 Hs. destruct (IHv _ _ Hs) as [L' Hl].
      split; [exact L' | apply Hl; lia].
    + intros s' acc' res' L1 Hs. destruct (IHe _ _ _ Hs) as [L' Hl].
      split; [exact L' | apply Hl; lia].
Qed.

Lemma parse_value_fuel (n : nat) (s : jsstring) (res : json * jsstring) :
  parse_value n s = Some res -> parse_value (enough_fuel s) s = Some res.
Proof.
  intros H. apply (parse_fuel n) in H. apply H. unfold enough_fuel. lia.
Qed.

(** The object [JSON.parse] returns has no name twice. *)
Lemma parse_members_keys (n : nat) :
  forall s acc res,
    parse_members n s acc = Some res -> NoDup (keys acc) ->
    exists props, fst res = JObj props /\ NoDup (keys props).
Proof.
  induction n as [|n IH]; intros s acc res H Hacc; [discriminate H|].
  simpl in H. unfold members_step in H.
  repeat break_in H.
  - eapply IH; [eassumption | apply NoDup_define; assumption].
  - injection H as <-. simpl. eexists; split; [reflexivity|].
    apply NoDup_define; assumption.
Qed.

Lemma parse_elements_array (n : nat) :
  forall s acc res,
    parse_elements n s acc = Some res -> exists l, fst res = JArr l.
Proof.
  induction n as [|n IH]; intros s acc res H; [discriminate H|].
  simpl in H. unfold elements_step in H.
  repeat break_in H.
  - eapply IH; eassumption.
  - injection H as <-. simpl. eexists; reflexivity.
Qed.

Lemma parse_value_keys (n : nat) (s : jsstring) props rest :
  parse_value n s = Some (JObj props, rest) -> NoDup (keys props).
Proof.
  destruct n as [|n]; [discriminate|]. simpl. unfold value_step, parse_word.
  intros H. repeat break_in H; try (injection H as <- _; constructor);
    try discriminate H.
  - apply parse_members_keys in H; [|constructor].
    destruct H as (p & Hp & Hnd). simpl in Hp. injection Hp as <-. exact Hnd.
  - apply parse_elements_array in H. destruct H as (l & Hl). discriminate Hl.
Qed.

Lemma parse_keys (text : jsstring) props :
  JSON.parse text = Some (JObj props) -> NoDup (keys props).
Proof.
  unfold JSON.parse. intros H.
  destruct (parse_value (enough_fuel text) text) as [[v rest]|] eqn:E;
    [|discriminate H].
  destruct (skip_ws rest); [|discriminate H]. injection H as ->.
  eapply parse_value_keys; eassumption.
Qed.

(** ** Import *)

Lemma as_TranslationData_json_of_data (o : TranslationData) :
  as_TranslationData (JObj (json_of_data o)) = Some o.
Proof.
  simpl. induction o as [|[k [m]] o IH]; simpl; [reflexivity|].
  now rewrite IH.
Qed.

Lemma as_TranslationEntry_raw_of_entry (entries : list TranslationEntry) :
  map_throwing as_TranslationEntry (List.map raw_of_entry entries) = Some entries.
Proof.
  induction entries as [|[i k v] entries IH]; [reflexivity|].
  cbn [List.map map_throwing]. rewrite IH. reflexivity.
Qed.

(** Reading a typed state back from the hooks gives the state. *)
Lemma as_State_stored_of (st : State) : as_State (stored_of st) = Some st.
Proof.
  unfold as_State, stored_of.
  cbn [stored_originalData stored_translationEntries stored_fileName
       stored_isDownloadModalOpen stored_downloadFileName].
  rewrite as_TranslationData_json_of_data, as_TranslationEntry_raw_of_entry.
  destruct st; reflexivity.
Qed.

Lemma typed_import (props : object json) (data : TranslationData) :
  as_TranslationData (JObj props) = Some data ->
  exists raws,
    map_throwing raw_entry_of props = Some raws
    /\ map_throwing as_TranslationEntry raws = Some (List.map entry_of data)
    /\ keys data = keys props.
Proof.
  simpl. revert data. induction props as [|[k v] props IH]; simpl; intros data H.
  - injection H as <-. exists []. repeat split.
  - destruct (as_Message v) as [m|] eqn:Em; [|discriminate H].
    destruct (map_throwing _ props) as [data'|] eqn:Ed; [|discriminate H].
    injection H as <-.
    destruct (IH _ eq_refl) as (raws & Hr & Ht & Hk).
    unfold as_Message in Em. destruct v; try discriminate Em.
    unfold raw_entry_of at 1. simpl.
    destruct (own_lookup properties (js "defaultMessage")) as [[]|];
      try discriminate Em.
    injection Em as <-. rewrite Hr.
    eexists. split; [reflexivity|].
    cbn [map_throwing as_TranslationEntry raw_defaultMessage raw_id raw_key].
    rewrite Ht, Hk. split; reflexivity.
Qed.

(** What an upload that the model follows has done: either the text parsed
    to an object of the declared shape, which replaced the document, or it
    did not parse, and only the displayed file name changed. *)
Lemma upload_inv (st st' : State) (f : File) :
  upload st f = Some st' ->
  (exists props,
      JSON.parse (content f) = Some (JObj props)
      /\ as_TranslationData (JObj props) = Some (originalData st')
      /\ alert (reader_onload (content f)) = None
      /\ st' = {| translationEntries := List.map entry_of (originalData st');
                  originalData := originalData st';
                  fileName := name f;
                  isDownloadModalOpen := isDownloadModalOpen st;
                  downloadFileName := downloadFileName st |})
  \/ (JSON.parse (content f) = None
      /\ alert (reader_onload (content f)) = Some alert_text
      /\ st' = handleFileUpload st (Some f)).
Proof.
  unfold upload, import, reader_onload. intros H.
  destruct (JSON.parse (content f)) as [j|] eqn:Ep.
  - left.
    assert (Hd : exists data, as_TranslationData j = Some data).
    { unfold as_State in H.
      destruct (Object_entries j); [destruct (map_throwing _ _)|];
        cbn [commit setOriginalData setTranslationEntries stored_originalData]
          in H;
        destruct (as_TranslationData j); eauto; discriminate H. }
    destruct Hd as (data & Hd).
    destruct j; try discriminate Hd.
    destruct (typed_import _ Hd) as (raws & Hr & Ht & Hk).
    simpl Object_entries in H. cbv iota beta in H.
    simpl Object_entries. cbv iota beta. rewrite Hr in *.
    unfold as_State in H.
    cbn [commit setFileName stored_of setOriginalData setTranslationEntries
         stored_originalData stored_translationEntries stored_fileName
         stored_isDownloadModalOpen stored_downloadFileName] in H.
    rewrite Hd, Ht in H. injection H as <-. simpl.
    exists properties. repeat split. exact Hd.
  - right.
    change (as_State (setFileName (name f) (stored_of st)) = Some st') in H.
    change (setFileName (name f) (stored_of st))
      with (stored_of (handleFileUpload st (Some f))) in H.
    rewrite as_State_stored_of in H. injection H as <-.
    repeat split.
Qed.

Lemma own_lookup_In (V : Type) (o : object V) (k : jsstring) (v : V) :
  NoDup (keys o) -> In (k, v) o -> own_lookup o k = Some v.
Proof.
  induction o as [|[k0 v0] o IH]; simpl; intros Hnd Hin; [tauto|].
  inversion Hnd as [|? ? Hk0 Hnd']; subst.
  destruct Hin as [Heq|Hin].
  - injection Heq as -> ->. now rewrite str_eqb_refl.
  - destruct (str_eqb k0 k) eqn:E; [|auto].
    apply str_eqb_eq in E. subst k0. exfalso. apply Hk0.
    apply in_map_iff. exists (k, v). auto.
Qed.

Lemma typed_values (props : object json) (data : TranslationData) :
  as_TranslationData (JObj props) = Some data ->
  Forall2 (fun p q =>
             fst p = fst q
             /\ get_defaultMessage (snd q)
                = Some (value (JStr (message_defaultMessage (snd p)))))
          data props.
Proof.
  simpl. revert data. induction props as [|[k v] props IH]; simpl; intros data H.
  - injection H as <-. constructor.
  - destruct (as_Message v) as [m|] eqn:Em; [|discriminate H].
    destruct (map_throwing _ props) as [data'|] eqn:Ed; [|discriminate H].
    injection H as <-. constructor; [|apply IH; reflexivity].
    simpl. split; [reflexivity|].
    unfold as_Message in Em. destruct v; try discriminate Em. simpl.
    destruct (own_lookup properties (js "defaultMessage")) as [[]|];
      try discriminate Em.
    injection Em as <-. reflexivity.
Qed.

(** ** isModified *)

Lemma isModified_after_import (st : State) (f : File) (st' : State)
  (e : TranslationEntry) :
  upload st f = Some st' ->
  alert (reader_onload (content f)) = None ->
  In e (translationEntries st') ->
  isModified (originalData st') e = false.
Proof.
  intros Hu Ha Hin. destruct (upload_inv _ _ Hu) as [(props & Hp & Hd & _ & Hst)|(_ & Ha' & _)];
    [|congruence].
  rewrite Hst in Hin. simpl in Hin. apply in_map_iff in Hin.
  destruct Hin as ([k m] & <- & Hin).
  destruct (typed_import _ Hd) as (_ & _ & _ & Hk).
  pose proof (parse_keys _ Hp) as Hnd. rewrite <- Hk in Hnd.
  unfold isModified, original_defaultMessage, hasOwnProperty, entry_of. simpl.
  rewrite (own_lookup_In _ _ _ Hnd Hin). simpl.
  now rewrite str_eqb_refl.
Qed.

(** ** Row ids *)

Lemma map_id_edit (f : TranslationEntry -> TranslationEntry) (g : TranslationEntry -> bool)
  (entries : list TranslationEntry) :
  (forall e, id (f e) = id e) ->
  List.map id (List.map (fun e => if g e then f e else e) entries)
  = List.map id entries.
Proof.
  intros Hf. rewrite map_map. apply map_ext. intros e.
  destruct (g e); [apply Hf | reflexivity].
Qed.

Lemma ids_of_import (data : TranslationData) :
  List.map id (List.map entry_of data) = keys data.
Proof. rewrite map_map. reflexivity. Qed.

(** One action keeps the ids distinct, an [AddRow] provided its id is new. *)
Lemma act_ids_unique (st st' : State) (a : Action) :
  NoDup (List.map id (translationEntries st)) ->
  match a with
  | AddRow now => ~ In (toString now) (List.map id (translationEntries st))
  | _ => True
  end ->
  act st a = Some st' ->
  NoDup (List.map id (translationEntries st')).
Proof.
  intros Hnd Hfresh H. destruct a; simpl in H;
    try (injection H as <-; simpl; try exact Hnd).
  - destruct (upload_inv _ _ H) as [(props & Hp & Hd & _ & ->)|(_ & _ & ->)];
      [|exact Hnd].
    simpl. rewrite ids_of_import.
    destruct (typed_import _ Hd) as (_ & _ & _ & ->).
    eapply parse_keys; eassumption.
  - unfold handlePropertyChange.
    rewrite (map_id_edit (fun e => set_key e newKey)); auto.
  - unfold handleTranslationChange.
    rewrite (map_id_edit (fun e => set_defaultMessage e newTranslation)); auto.
  - unfold handleClearTranslation.
    rewrite (map_id_edit (fun e => set_defaultMessage e [])); auto.
  - unfold clearAllValues.
    rewrite (map_id_edit (fun e => set_defaultMessage e [])); auto.
  - unfold addNewTranslation. rewrite map_app. simpl.
    apply NoDup_app; [exact Hnd | constructor; [tauto | constructor] |].
    intros x Hx [<-|[]]. contradiction.
Qed.

Lemma run_ids_unique (actions : list Action) :
  forall st st',
    NoDup (List.map id (translationEntries st)) ->
    clocks_fresh st actions ->
    run st actions = Some st' ->
    NoDup (List.map id (translationEntries st')).
Proof.
  induction actions as [|a rest IH]; simpl; intros st st' Hnd Hfresh H.
  - injection H as <-. exact Hnd.
  - destruct Hfresh as [Ha Hrest].
    destruct (act st a) as [st1|] eqn:E; [|discriminate H].
    apply (IH st1); auto.
    eapply act_ids_unique; eassumption.
Qed.

(** ** Handlers that throw *)

Lemma raw_entry_of_None (p : jsstring * json) :
  raw_entry_of p = None <-> snd p = JNull.
Proof.
  unfold raw_entry_of, get_defaultMessage. destruct p as [k v]. simpl.
  destruct v; try (split; [discriminate | discriminate]); try tauto.
  destruct (own_lookup properties (js "defaultMessage"));
    split; discriminate.
Qed.

Lemma map_throwing_None (A B : Type) (f : A -> option B) (l : list A) :
  map_throwing f l = None <-> exists a, In a l /\ f a = None.
Proof.
  induction l as [|a l IH]; simpl.
  - split; [discriminate | intros (a & [] & _)].
  - destruct (f a) as [b|] eqn:E.
    + destruct (map_throwing f l) as [t|].
      * split; [discriminate|]. intros (x & [Hx|Hx] & Hf).
        -- subst x. congruence.
        -- assert (H : @None (list B) = None) by reflexivity.
           destruct IH as [_ IH]. discriminate IH. eauto.
      * split; [|reflexivity]. intros _.
        destruct IH as [IH _]. destruct (IH eq_refl) as (x & Hx & Hf). eauto.
    + split; [|reflexivity]. intros _. eauto.
Qed.

Lemma map_throwing_Forall2 (A B : Type) (f : A -> option B) (l : list A)
  (l' : list B) :
  map_throwing f l = Some l' -> Forall2 (fun a b => f a = Some b) l l'.
Proof.
  revert l'. induction l as [|a l IH]; simpl; intros l' H.
  - injection H as <-. constructor.
  - destruct (f a) as [b|] eqn:E; [|discriminate H].
    destruct (map_throwing f l) as [t|]; [|discriminate H].
    injection H as <-. constructor; auto.
Qed.

Lemma indexed_names (A B : Type) (l : list A) (l' : list B) :
  List.length l = List.length l' ->
  List.map fst (indexed l) = List.map fst (indexed l').
Proof.
  intros H. unfold indexed. rewrite <- H.
  set (names := List.map (fun i => toString (Z.of_nat i)) (seq 0 (List.length l))).
  assert (Hn : List.length names = List.length l)
    by (unfold names; now rewrite length_map, length_seq).
  assert (Hn' : List.length names = List.length l') by congruence.
  clearbody names. clear H.
  transitivity names.
  - revert l Hn. clear. induction names as [|n names IH]; intros [|a l] H;
      try discriminate H; simpl; [reflexivity|]. f_equal. apply IH.
    now injection H.
  - symmetry. revert l' Hn'. clear.
    induction names as [|n names IH]; intros [|a l] H;
      try discriminate H; simpl; [reflexivity|]. f_equal. apply IH.
    now injection H.
Qed.

Lemma existsb_str_eqb (k : jsstring) (l : list jsstring) :
  existsb (str_eqb k) l = true <-> In k l.
Proof.
  rewrite existsb_exists. split.
  - intros (x & Hx & E). apply str_eqb_eq in E. now subst.
  - intros H. exists k. split; [exact H | apply str_eqb_refl].
Qed.

(** Every property [Object.entries] lists is an own property. *)
Lemma entries_are_own (j : json) (props : list (jsstring * json)) (k : jsstring) :
  Object_entries j = Some props ->
  In k (List.map fst props) ->
  Untyped.hasOwnProperty_call j k = returns true.
Proof.
  intros Ho Hin. destruct j; simpl in Ho; try discriminate Ho;
    injection Ho as <-; simpl in *; try contradiction.
  - apply (proj2 (existsb_str_eqb k _)) in Hin.
    rewrite (@indexed_names _ _ s (List.map (fun c => JStr [c]) s))
      by (now rewrite length_map).
    now rewrite Hin.
  - apply (proj2 (existsb_str_eqb k _)) in Hin. now rewrite Hin.
  - f_equal. apply hasOwnProperty_In. exact Hin.
Qed.

Lemma rows_of_entries (props : list (jsstring * json)) (raws : list RawEntry) :
  map_throwing raw_entry_of props = Some raws ->
  Forall2 (fun p r =>
             raw_id r = fst p
             /\ raw_key r = fst p
             /\ get_defaultMessage (snd p) = Some (raw_defaultMessage r))
          props raws.
Proof.
  intros H. apply map_throwing_Forall2 in H.
  induction H as [|[k v] r props' raws' Hr _ IH]; constructor; auto.
  unfold raw_entry_of in Hr. simpl in Hr.
  destruct (get_defaultMessage v) as [d|] eqn:E; [|discriminate Hr].
  injection Hr as <-. simpl. auto.
Qed.

Lemma row_ids_are_names (props : list (jsstring * json)) (raws : list RawEntry)
  (r : RawEntry) :
  map_throwing raw_entry_of props = Some raws ->
  In r raws -> In (raw_id r) (List.map fst props).
Proof.
  intros H. apply rows_of_entries in H.
  induction H as [|p r' props' raws' (Hi & _) _ IH]; simpl; [contradiction|].
  intros [->|Hin]; [left; now symmetry | right; auto].
Qed.

(** After an import without an alert no row is new, and no predicate
    throws. *)
Lemma predicates_after_import (j : json) (props : list (jsstring * json))
  (raws : list RawEntry) (r : RawEntry) :
  Object_entries j = Some props ->
  map_throwing raw_entry_of props = Some raws ->
  In r raws ->
  Untyped.isNewTranslation j r = returns false
  /\ Untyped.isEmptyNewEntry j r = returns false
  /\ Untyped.isModified j r <> throws.
Proof.
  intros Ho Hm Hin.
  assert (Hown : Untyped.hasOwnProperty_call j (raw_id r) = returns true)
    by (apply (@entries_are_own j props _ Ho); eapply row_ids_are_names; eauto).
  unfold Untyped.isEmptyNewEntry, Untyped.isNewTranslation, Untyped.isModified.
  rewrite Hown. repeat split.
  destruct (Untyped.original_defaultMessage j (raw_id r)) as [a|] eqn:Ea.
  - destruct (Untyped.strict_neq a (raw_defaultMessage r)) as [[]|]; discriminate.
  - destruct j; discriminate.
Qed.

(** ** JSON.stringify and JSON.parse *)

Lemma hex_digit_hex_char (d : N) : (d < 16)%N -> hex_digit (hex_char d) = Some d.
Proof.
  intros H.
  assert (E : In d (List.map N.of_nat (seq 0 16))).
  { apply in_map_iff. exists (N.to_nat d). split; [lia|].
    apply in_seq. lia. }
  simpl in E.
  repeat (destruct E as [<-|E]; [reflexivity|]). destruct E.
Qed.

Lemma hex4_unicode_escape (c : code_unit) :
  (c < 65536)%N ->
  exists h1 h2 h3 h4,
    unicode_escape c = [92; 117; h1; h2; h3; h4]%N
    /\ hex4 h1 h2 h3 h4 = Some c.
Proof.
  intros H. unfold unicode_escape. do 4 eexists. split; [reflexivity|].
  unfold hex4.
  rewrite !hex_digit_hex_char by (apply N.mod_lt; discriminate).
  f_equal.
  pose proof (N.div_mod c 16 ltac:(discriminate)).
  pose proof (N.div_mod (c / 16) 16 ltac:(discriminate)).
  pose proof (N.div_mod (c / 16 / 16) 16 ltac:(discriminate)).
  pose proof (N.div_mod (c / 16 / 16 / 16) 16 ltac:(discriminate)).
  assert (c / 16 / 16 / 16 < 16)%N.
  { rewrite !N.Div0.div_div. apply N.Div0.div_lt_upper_bound. simpl. lia. }
  rewrite (N.mod_small (c / 16 / 16 / 16) 16) in * by assumption.
  replace (c / 256)%N with (c / 16 / 16)%N by (rewrite N.Div0.div_div; reflexivity).
  replace (c / 4096)%N with (c / 16 / 16 / 16)%N
    by (rewrite !N.Div0.div_div; reflexivity).
  rewrite (N.mod_small (c / 16 / 16 / 16) 16) by assumption.
  lia.
Qed.

Lemma escape_None (c : code_unit) :
  escape c = None ->
  (c =? 34)%N = false /\ (c =? 92)%N = false /\ (c <? 32)%N = false.
Proof.
  unfold escape. intros H.
  repeat match type of H with
         | (if ?b then _ else _) = _ => destruct b eqn:?; [discriminate H|]
         end.
  auto.
Qed.

(** A code unit that stands for itself is read back as itself. *)
Lemma parse_chars_plain (c : code_unit) (r : jsstring) :
  escape c = None -> parse_chars (c :: r) = cons_unit c (parse_chars r).
Proof.
  intros H. apply escape_None in H. destruct H as (H1 & H2 & H3).
  simpl. now rewrite H1, H2, H3.
Qed.

Lemma parse_chars_unicode_escape (c : code_unit) (r : jsstring) :
  (c < 65536)%N ->
  parse_chars (unicode_escape c ++ r) = cons_unit c (parse_chars r).
Proof.
  intros H. destruct (hex4_unicode_escape H) as (h1 & h2 & h3 & h4 & -> & Hh).
  simpl. now rewrite Hh.
Qed.

(** An escape is read back as the code unit it was written for. *)
Lemma parse_chars_escape (c : code_unit) (e r : jsstring) :
  escape c = Some e -> parse_chars (e ++ r) = cons_unit c (parse_chars r).
Proof.
  unfold escape. intros H.
  repeat match type of H with
         | (if (?x =? ?n)%N then _ else _) = _ =>
             destruct (N.eqb_spec x n);
             [subst; injection H as <-; reflexivity|]
         end.
  destruct (c <? 32)%N eqn:E; [|discriminate H]. injection H as <-.
  apply parse_chars_unicode_escape. apply N.ltb_lt in E. lia.
Qed.

Lemma surrogate_below (c : code_unit) :
  is_high_surrogate c || is_low_surrogate c = true -> (c < 65536)%N.
Proof.
  unfold is_high_surrogate, is_low_surrogate.
  rewrite orb_true_iff, !andb_true_iff, !N.leb_le. lia.
Qed.

Lemma quote_chars_cons (c : code_unit) (t : jsstring) :
  quote_chars (c :: t)
  = match escape c with
    | Some e => e ++ quote_chars t
    | None =>
        if is_high_surrogate c then
          match t with
          | d :: t' =>
              if is_low_surrogate d then c :: d :: quote_chars t'
              else unicode_escape c ++ quote_chars t
          | [] => unicode_escape c
          end
        else if is_low_surrogate c then unicode_escape c ++ quote_chars t
        else c :: quote_chars t
    end.
Proof. reflexivity. Qed.

Lemma parse_chars_quote_bounded (n : nat) :
  forall s rest, List.length s <= n ->
    parse_chars (quote_chars s ++ 34%N :: rest) = Some (s, rest).
Proof.
  induction n as [|n IH]; intros s rest Hn.
  - destruct s; [reflexivity | simpl in Hn; lia].
  - destruct s as [|c t]; [reflexivity|]. simpl in Hn.
    assert (IHt : parse_chars (quote_chars t ++ 34%N :: rest) = Some (t, rest))
      by (apply IH; lia).
    rewrite quote_chars_cons.
    destruct (escape c) as [e|] eqn:Ee.
    { rewrite <- app_assoc, (@parse_chars_escape _ _ _ Ee), IHt. reflexivity. }
    destruct (is_high_surrogate c) eqn:Eh.
    { assert (Hc : (c < 65536)%N) by (apply surrogate_below; rewrite Eh; reflexivity).
      destruct t as [|d t'].
      - rewrite (@parse_chars_unicode_escape _ _ Hc). reflexivity.
      - cbv iota. destruct (is_low_surrogate d) eqn:El.
        + assert (Ed : escape d = None).
          { unfold is_low_surrogate in El. apply andb_true_iff in El.
            destruct El as [El _]. apply N.leb_le in El. unfold escape.
            repeat match goal with
                   | |- (if (?x =? ?m)%N then _ else _) = _ =>
                       destruct (N.eqb_spec x m); [lia|]
                   end.
            destruct (N.ltb_spec d 32); [lia | reflexivity]. }
          simpl app. rewrite (@parse_chars_plain _ _ Ee), (@parse_chars_plain _ _ Ed).
          simpl in Hn. rewrite (IH t' rest) by lia. reflexivity.
        + rewrite <- app_assoc, (@parse_chars_unicode_escape _ _ Hc), IHt.
          reflexivity. }
    destruct (is_low_surrogate c) eqn:El.
    { assert (Hc : (c < 65536)%N)
        by (apply surrogate_below; rewrite El; apply orb_true_r).
      rewrite <- app_assoc, (@parse_chars_unicode_escape _ _ Hc), IHt. reflexivity. }
    simpl app. rewrite (@parse_chars_plain _ _ Ee), IHt. reflexivity.
Qed.

(** Reading a quoted string gives the string back. *)
Lemma parse_chars_quote (s rest : jsstring) :
  parse_chars (quote_chars s ++ 34%N :: rest) = Some (s, rest).
Proof. apply (@parse_chars_quote_bounded (List.length s)). lia. Qed.

Lemma parse_value_skip (f : nat) (c : code_unit) (s : jsstring) :
  is_json_ws c = true -> parse_value f (c :: s) = parse_value f s.
Proof.
  intros H. destruct f; [reflexivity|]. simpl. unfold value_step. simpl.
  now rewrite H.
Qed.

Lemma parse_members_skip (f : nat) (c : code_unit) (s : jsstring) acc :
  is_json_ws c = true -> parse_members f (c :: s) acc = parse_members f s acc.
Proof.
  intros H. destruct f; [reflexivity|]. simpl. unfold members_step. simpl.
  now rewrite H.
Qed.

(** The text of a message, character by character around its string. *)
Lemma stringify_message_text (m : Message) (rest : jsstring) :
  stringify_message m ++ rest
  = [123; 10; 32; 32; 32; 32; 34]%N ++ quote_chars (js "defaultMessage")
    ++ [34; 58; 32; 34]%N ++ quote_chars (message_defaultMessage m)
    ++ 34%N :: [10; 32; 32; 125]%N ++ rest.
Proof.
  unfold stringify_message, quote, newline.
  change (js "{") with [123%N]. change (js "    ") with [32; 32; 32; 32]%N.
  change (js ": ") with [58; 32]%N. change (js "  }") with [32; 32; 125]%N.
  repeat (rewrite <- ?app_assoc; simpl app). reflexivity.
Qed.

Lemma parse_value_message (f : nat) (m : Message) (rest : jsstring) :
  parse_value (3 + f) (stringify_message m ++ rest)
  = Some (json_of_message m, rest).
Proof.
  rewrite stringify_message_text.
  simpl. unfold value_step, members_step. simpl.
  rewrite parse_chars_quote. simpl.
  reflexivity.
Qed.

Lemma stringify_properties_text (p : jsstring * Message) (t : TranslationData)
  (rest : jsstring) :
  stringify_properties (p :: t) ++ rest
  = [32; 32; 34]%N ++ quote_chars (fst p)
    ++ 34%N :: [58; 32]%N ++ stringify_message (snd p) ++ separator t ++ rest.
Proof.
  assert (H : stringify_property p ++ separator t ++ rest
              = [32; 32; 34]%N ++ quote_chars (fst p)
                ++ 34%N :: [58; 32]%N ++ stringify_message (snd p)
                ++ separator t ++ rest).
  { unfold stringify_property, quote.
    change (js "  ") with [32; 32]%N. change (js ": ") with [58; 32]%N.
    repeat (rewrite <- ?app_assoc; simpl app). reflexivity. }
  rewrite <- H. destruct t as [|p' t].
  - reflexivity.
  - change (stringify_properties (p :: p' :: t))
      with (stringify_property p ++ js "," ++ newline
            ++ stringify_properties (p' :: t)).
    unfold separator, newline. change (js ",") with [44%N].
    repeat (rewrite <- ?app_assoc; simpl app). reflexivity.
Qed.

(** The members of a written object are read back one by one, each defined
    on the object read so far. *)
Lemma parse_members_properties (o : TranslationData) :
  forall (acc : object json) (rest : jsstring) (f : nat),
    o <> [] ->
    parse_members (List.length o + 3 + f)
                  (stringify_properties o ++ 10%N :: 125%N :: rest) acc
    = Some (JObj (fold_left define_step (json_of_data o) acc), rest).
Proof.
  induction o as [|p t IH]; intros acc rest f Hne; [congruence|].
  rewrite stringify_properties_text.
  change (List.length (p :: t) + 3 + f) with (S (List.length t + 3 + f)).
  cbn [parse_members]. unfold members_step.
  cbn [app skip_ws is_json_ws N.eqb Pos.eqb orb].
  rewrite parse_chars_quote.
  cbn [app skip_ws is_json_ws N.eqb Pos.eqb orb].
  rewrite parse_value_skip by reflexivity.
  replace (List.length t + 3 + f) with (3 + (List.length t + f)) by lia.
  rewrite parse_value_message.
  destruct t as [|p' t].
  - reflexivity.
  - unfold separator.
    cbn [app skip_ws is_json_ws N.eqb Pos.eqb orb].
    rewrite parse_members_skip by reflexivity.
    replace (3 + (List.length (p' :: t) + f))
      with (List.length (p' :: t) + 3 + f) by lia.
    rewrite IH by discriminate. reflexivity.
Qed.

Lemma parse_value_stringify (o : TranslationData) :
  parse_value (List.length o + 4) (stringify o)
  = Some (JObj (fold_left define_step (json_of_data o) []), []).
Proof.
  destruct o as [|p t]; [reflexivity|].
  unfold stringify, newline. change (js "{") with [123%N].
  change (js "}") with [125%N].
  replace (List.length (p :: t) + 4) with (S (List.length (p :: t) + 3 + 0)) by lia.
  cbn [parse_value]. unfold value_step.
  cbn [app skip_ws is_json_ws N.eqb Pos.eqb orb].
  rewrite stringify_properties_text.
  cbn [app skip_ws is_json_ws N.eqb Pos.eqb orb].
  rewrite <- (@parse_members_skip (List.length (p :: t) + 3 + 0) 32%N) by reflexivity.
  rewrite <- (@parse_members_skip (List.length (p :: t) + 3 + 0) 32%N) by reflexivity.
  pose proof (@stringify_properties_text p t (10%N :: 125%N :: [])) as E.
  cbn [app] in E.
  refine (eq_trans (f_equal (fun s => parse_members _ s []) (eq_sym E)) _).
  apply parse_members_properties. discriminate.
Qed.

(** [JSON.parse (JSON.stringify (o, null, 2))] *)
Lemma parse_stringify (o : TranslationData) :
  JSON.parse (stringify o)
  = Some (JObj (fold_left define_step (json_of_data o) [])).
Proof.
  unfold JSON.parse.
  rewrite (parse_value_fuel _ _ (parse_value_stringify o)). reflexivity.
Qed.

(** ** Enumeration order *)

Lemma ForallOrdPairs_app_cross (A : Type) (R : A -> A -> Prop) (l1 l2 : list A) :
  ForallOrdPairs R (l1 ++ l2) ->
  forall x y, In x l1 -> In y l2 -> R x y.
Proof.
  induction l1 as [|a l1 IH]; simpl; intros H x y Hx Hy; [tauto|].
  inversion H as [|? ? Ha Hrest]; subst.
  destruct Hx as [<-|Hx].
  - rewrite Forall_forall in Ha. apply Ha. apply in_app_iff. auto.
  - eapply IH; eassumption.
Qed.

Section EnumerationOrder.
Variable V : Type.
Implicit Types (o : object V) (k : jsstring) (v : V).

Lemma insert_index_last n k v o :
  array_index k = Some n ->
  (forall x, In x (keys o) -> precedes x k) ->
  insert_index n k v o = o ++ [(k, v)].
Proof.
  intros Hk. induction o as [|[k0 v0] o IH]; simpl; intros H; [reflexivity|].
  pose proof (H k0 (or_introl eq_refl)) as H0. unfold precedes in H0.
  rewrite Hk in H0. destruct (array_index k0) as [m|]; [|contradiction].
  destruct (N.ltb_spec n m); [lia|]. f_equal. apply IH. auto.
Qed.

Lemma create_last o k v :
  (forall x, In x (keys o) -> precedes x k) -> create o k v = o ++ [(k, v)].
Proof.
  intros H. unfold create. destruct (array_index k) as [n|] eqn:E;
    [apply insert_index_last; assumption | reflexivity].
Qed.

Lemma define_last o k v :
  ~ In k (keys o) -> (forall x, In x (keys o) -> precedes x k) ->
  define o k v = o ++ [(k, v)].
Proof.
  intros Hk H. unfold define.
  apply hasOwnProperty_false in Hk. rewrite Hk. apply create_last; assumption.
Qed.

Lemma assign_last o k v :
  ~ In k (keys o) -> k <> js "__proto__" ->
  (forall x, In x (keys o) -> precedes x k) ->
  assign o k v = o ++ [(k, v)].
Proof.
  intros Hk Hp H. unfold assign.
  apply hasOwnProperty_false in Hk. rewrite Hk.
  apply str_eqb_neq in Hp. rewrite Hp. apply create_last; assumption.
Qed.

(** Properties defined in enumeration order are enumerated in the order
    they were defined. *)
Lemma define_in_order (l : object V) :
  forall acc,
    NoDup (keys acc ++ keys l) ->
    in_enumeration_order (keys acc ++ keys l) ->
    fold_left (fun a p => define a (fst p) (snd p)) l acc = acc ++ l.
Proof.
  induction l as [|[k v] l IH]; intros acc Hnd Hord; simpl.
  - now rewrite app_nil_r.
  - assert (Hstep : define acc k v = acc ++ [(k, v)]).
    { apply define_last.
      - simpl in Hnd. apply NoDup_remove_2 in Hnd. rewrite in_app_iff in Hnd. tauto.
      - intros x Hx. apply (ForallOrdPairs_app_cross _ _ Hord x k Hx).
        left. reflexivity. }
    rewrite Hstep, IH.
    + now rewrite <- app_assoc.
    + unfold keys in *. rewrite map_app, <- app_assoc. exact Hnd.
    + unfold keys in *. rewrite map_app, <- app_assoc. exact Hord.
Qed.

End EnumerationOrder.

Lemma reduce_in_order (l : list TranslationEntry) :
  forall acc,
    NoDup (keys acc ++ List.map key l) ->
    in_enumeration_order (keys acc ++ List.map key l) ->
    ~ In (js "__proto__") (List.map key l) ->
    fold_left reduce_step l acc
    = acc ++ List.map (fun e => (key e, mkMessage (defaultMessage e))) l.
Proof.
  induction l as [|e l IH]; intros acc Hnd Hord Hp; simpl.
  - now rewrite app_nil_r.
  - assert (Hstep : reduce_step acc e
                    = acc ++ [(key e, mkMessage (defaultMessage e))]).
    { unfold reduce_step. apply assign_last.
      - simpl in Hnd. apply NoDup_remove_2 in Hnd. rewrite in_app_iff in Hnd. tauto.
      - simpl in Hp. intros Heq. apply Hp. left. exact Heq.
      - intros x Hx. apply (ForallOrdPairs_app_cross _ _ Hord x (key e) Hx).
        left. reflexivity. }
    rewrite Hstep, IH.
    + now rewrite <- app_assoc.
    + unfold keys in *. rewrite map_app, <- app_assoc. exact Hnd.
    + unfold keys in *. rewrite map_app, <- app_assoc. exact Hord.
    + simpl in Hp. tauto.
Qed.

(** ** Import of a parsed object *)

Lemma upload_valid (st : State) (f : File) (j : json) (data : TranslationData) :
  JSON.parse (content f) = Some j ->
  as_TranslationData j = Some data ->
  upload st f
  = Some {| translationEntries := List.map entry_of data;
            originalData := data;
            fileName := name f;
            isDownloadModalOpen := isDownloadModalOpen st;
            downloadFileName := downloadFileName st |}
  /\ alert (reader_onload (content f)) = None.
Proof.
  intros Hp Hd. destruct j; try discriminate Hd.
  destruct (typed_import _ Hd) as (raws & Hr & Ht & Hk).
  unfold upload, import, reader_onload. rewrite Hp. simpl Object_entries.
  cbv iota beta. rewrite Hr. unfold as_State.
  cbn [commit setFileName stored_of setOriginalData setTranslationEntries alert
       stored_originalData stored_translationEntries stored_fileName
       stored_isDownloadModalOpen stored_downloadFileName].
  rewrite Hd, Ht. split; reflexivity.
Qed.

Lemma filter_all (A : Type) (f : A -> bool) (l : list A) :
  (forall x, In x l -> f x = true) -> filter f l = l.
Proof.
  induction l as [|a l IH]; simpl; intros H; [reflexivity|].
  rewrite (H a (or_introl eq_refl)). f_equal. apply IH. auto.
Qed.

(** ** Enumeration order is kept by assignment *)

Lemma ForallOrdPairs_snoc (A : Type) (R : A -> A -> Prop) (l : list A) (a : A) :
  ForallOrdPairs R l -> (forall x, In x l -> R x a) -> ForallOrdPairs R (l ++ [a]).
Proof.
  induction 1 as [|b l Hb Hl IH]; simpl; intros Ha.
  - repeat constructor.
  - constructor; [|apply IH; auto].
    apply Forall_app. split; [exact Hb | constructor; auto].
Qed.

Section OrderKept.
Variable V : Type.
Implicit Types (o : object V) (k : jsstring) (v : V).

Lemma ordered_insert_index n k v o :
  array_index k = Some n ->
  in_enumeration_order (keys o) ->
  in_enumeration_order (keys (insert_index n k v o)).
Proof.
  intros Hk. unfold in_enumeration_order.
  induction o as [|[k0 v0] o IH]; simpl; intros H.
  - repeat constructor.
  - inversion H as [|? ? H0 Hrest]; subst. rewrite Forall_forall in H0.
    destruct (array_index k0) as [m|] eqn:E0; [destruct (N.ltb_spec n m)|].
    + simpl. constructor; [|exact H]. constructor.
      * unfold precedes. rewrite Hk, E0. lia.
      * apply Forall_forall. intros x Hx. specialize (H0 x Hx).
        unfold precedes in *. rewrite Hk. rewrite E0 in H0.
        destruct (array_index x); [lia | exact I].
    + simpl. constructor; [|apply IH; exact Hrest].
      apply Forall_forall. intros x Hx. apply keys_insert_index in Hx.
      destruct Hx as [->|Hx]; [|auto].
      unfold precedes. rewrite Hk, E0. lia.
    + simpl. constructor; [|exact H]. constructor.
      * unfold precedes. rewrite Hk, E0. exact I.
      * apply Forall_forall. intros x Hx. specialize (H0 x Hx).
        unfold precedes in *. rewrite Hk. rewrite E0 in H0.
        destruct (array_index x); [contradiction | exact I].
Qed.

Lemma ordered_create o k v :
  in_enumeration_order (keys o) -> in_enumeration_order (keys (create o k v)).
Proof.
  intros H. unfold create. destruct (array_index k) as [n|] eqn:E.
  - apply ordered_insert_index; assumption.
  - unfold keys. rewrite map_app. simpl. apply ForallOrdPairs_snoc; [exact H|].
    intros x _. unfold precedes. rewrite E. destruct (array_index x); exact I.
Qed.

Lemma ordered_assign o k v :
  in_enumeration_order (keys o) -> in_enumeration_order (keys (assign o k v)).
Proof.
  intros H. unfold assign. destruct (hasOwnProperty o k).
  - rewrite keys_overwrite. exact H.
  - destruct (str_eqb k (js "__proto__")); [exact H | apply ordered_create; exact H].
Qed.

Lemma NoDup_assign o k v : NoDup (keys o) -> NoDup (keys (assign o k v)).
Proof.
  intros H. unfold assign. destruct (hasOwnProperty o k) eqn:E.
  - rewrite keys_overwrite. exact H.
  - destruct (str_eqb k (js "__proto__")); [exact H|].
    apply NoDup_create; [apply hasOwnProperty_false|]; assumption.
Qed.

End OrderKept.

Lemma reduce_keeps_order (l : list TranslationEntry) :
  forall acc,
    NoDup (keys acc) -> in_enumeration_order (keys acc) ->
    NoDup (keys (fold_left reduce_step l acc))
    /\ in_enumeration_order (keys (fold_left reduce_step l acc)).
Proof.
  induction l as [|e l IH]; intros acc Hnd Hord; simpl; [auto|].
  apply IH; unfold reduce_step; [apply NoDup_assign | apply ordered_assign];
    assumption.
Qed.

(* ================================================================== *)
(** * The claims *)

(** ** C1: Import of a file that cannot be used *)

(** C1 (as amended).  When the text is not parseable JSON the import shows
    the alert and calls no setter: the entry list and the snapshot stay as
    they were.  The alert is shown exactly when the text is not parseable
    JSON, or parses to [null], or to a value one of whose enumerated
    properties is [null]; whenever it is shown the entry list is not
    replaced.  Content of any other shape is stored without an alert: the
    snapshot becomes the parsed value, and the rows are its enumerated
    properties, with the name as id and as key and the member
    [defaultMessage] of the value, whatever it is, as value; every row
    predicate then evaluates without throwing.  The displayed file name
    becomes the name of the file in every case, and the dialog is left
    alone. *)
Theorem C1_import_failure (s : Stored) (f : File) :
  let e := reader_onload (content f) in
  let s' := import s f in
  (JSON.parse (content f) = None ->
     alert e = Some alert_text
     /\ setOriginalData e = None
     /\ setTranslationEntries e = None
     /\ stored_translationEntries s' = stored_translationEntries s
     /\ stored_originalData s' = stored_originalData s)
  /\ (alert e = Some alert_text <->
      JSON.parse (content f) = None
      \/ JSON.parse (content f) = Some JNull
      \/ exists j props k,
           JSON.parse (content f) = Some j
           /\ Object_entries j = Some props
           /\ In (k, JNull) props)
  /\ (alert e = Some alert_text ->
      setTranslationEntries e = None
      /\ stored_translationEntries s' = stored_translationEntries s)
  /\ (alert e <> Some alert_text ->
      exists j props,
        JSON.parse (content f) = Some j
        /\ Object_entries j = Some props
        /\ alert e = None
        /\ stored_originalData s' = j
        /\ Forall2 (fun p r =>
                      raw_id r = fst p
                      /\ raw_key r = fst p
                      /\ get_defaultMessage (snd p) = Some (raw_defaultMessage r))
                   props (stored_translationEntries s')
        /\ forall r, In r (stored_translationEntries s') ->
             Untyped.isNewTranslation j r = returns false
             /\ Untyped.isEmptyNewEntry j r = returns false
             /\ Untyped.isModified j r <> throws)
  /\ stored_fileName s' = name f
  /\ stored_isDownloadModalOpen s' = stored_isDownloadModalOpen s
  /\ stored_downloadFileName s' = stored_downloadFileName s.
Proof.
  cbv zeta. unfold import, reader_onload.
  destruct (JSON.parse (content f)) as [j|] eqn:Ep;
    [destruct (Object_entries j) as [props|] eqn:Eo;
     [destruct (map_throwing raw_entry_of props) as [raws|] eqn:Em|]|];
    cbn [commit setFileName alert setOriginalData setTranslationEntries
         stored_translationEntries stored_originalData stored_fileName
         stored_isDownloadModalOpen stored_downloadFileName].
  - (* stored *)
    split; [discriminate|]. split; [|split; [discriminate|split; [|auto]]].
    + split; [discriminate|].
      intros [H|[H|(j' & props' & k & Hj & Ho & Hin)]]; try discriminate H.
      * injection H as ->. discriminate Eo.
      * injection Hj as <-. rewrite Eo in Ho. injection Ho as <-.
        assert (Hn : map_throwing raw_entry_of props = None).
        { apply map_throwing_None. exists (k, JNull). split; [exact Hin|].
          apply raw_entry_of_None. reflexivity. }
        congruence.
    + intros _. exists j, props.
      split; [reflexivity|]. split; [exact Eo|]. split; [reflexivity|].
      split; [reflexivity|]. split; [apply rows_of_entries; exact Em|].
      intros r Hr. exact (@predicates_after_import j props raws r Eo Em Hr).
  - (* a property value is null *)
    split; [discriminate|]. split; [|split; [auto|split; [|auto]]].
    + split; [|reflexivity]. intros _. right. right.
      apply map_throwing_None in Em. destruct Em as ([k v] & Hin & Hf).
      apply raw_entry_of_None in Hf. simpl in Hf. subst v.
      exists j, props, k. auto.
    + intros H. now contradiction H.
  - (* null *)
    split; [discriminate|]. split; [|split; [auto|split; [|auto]]].
    + split; [|reflexivity]. intros _. right. left.
      destruct j; try discriminate Eo. reflexivity.
    + intros H. now contradiction H.
  - (* not JSON *)
    split; [auto|]. split; [split; auto|]. split; [auto|].
    split; [|auto]. intros H. now contradiction H.
Qed.

Lemma C1_import_failure_witness :
  let s := stored_of {| translationEntries := [mkEntry (js "a") (js "a") (js "x")];
                        originalData := [(js "a", mkMessage (js "x"))];
                        fileName := js "en.json";
                        isDownloadModalOpen := false;
                        downloadFileName := [] |} in
  let f := mkFile (js "broken.json") (json_text "{'a': {'defaultMessage': 'x'},}") in
  let g := mkFile (js "list.json") (json_text "[{'defaultMessage': 7}, 'text']") in
  (alert (reader_onload (content f)) = Some alert_text
   /\ setOriginalData (reader_onload (content f)) = None
   /\ setTranslationEntries (reader_onload (content f)) = None
   /\ stored_translationEntries (import s f) = stored_translationEntries s
   /\ stored_originalData (import s f) = stored_originalData s)
  /\ (exists j props,
        JSON.parse (content g) = Some j
        /\ Object_entries j = Some props
        /\ alert (reader_onload (content g)) = None
        /\ stored_originalData (import s g) = j
        /\ Forall2 (fun p r =>
                      raw_id r = fst p
                      /\ raw_key r = fst p
                      /\ get_defaultMessage (snd p) = Some (raw_defaultMessage r))
                   props (stored_translationEntries (import s g))
        /\ forall r, In r (stored_translationEntries (import s g)) ->
             Untyped.isNewTranslation j r = returns false
             /\ Untyped.isEmptyNewEntry j r = returns false
             /\ Untyped.isModified j r <> throws).
Proof.
  intros s f g. split.
  - refine (proj1 (C1_import_failure s f) _). vm_compute. reflexivity.
  - refine (proj1 (proj2 (proj2 (proj2 (C1_import_failure s g)))) _).
    vm_compute. discriminate.
Defined.

(** C1, the claim as stated fails.  A text that is not JSON changes the
    displayed file name.  A text of the wrong shape ([{"a": 5}], and also an
    array) is stored without any alert.  The text [null] raises the alert,
    yet the snapshot has become [null] by then, and the next evaluation of
    [isEmptyNewEntry] for the row of the table throws: the render fails. *)
Lemma C1_counterexample :
  let row := mkRaw (js "a") (js "a") (value (JStr (js "x"))) in
  let s := stored_of {| translationEntries := [mkEntry (js "a") (js "a") (js "x")];
                        originalData := [(js "a", mkMessage (js "x"))];
                        fileName := js "en.json";
                        isDownloadModalOpen := false;
                        downloadFileName := [] |} in
  let broken := mkFile (js "broken.json") (json_text "not json") in
  let number := mkFile (js "n.json") (json_text "{'a': 5}") in
  let array := mkFile (js "l.json") (json_text "[{'defaultMessage': 'x'}]") in
  let null := mkFile (js "null.json") (json_text "null") in
  (JSON.parse (content broken) = None
   /\ stored_fileName s = js "en.json"
   /\ stored_fileName (import s broken) = js "broken.json")
  /\ (alert (reader_onload (content number)) = None
      /\ stored_originalData (import s number) = JObj [(js "a", JNum (js "5"))]
      /\ stored_translationEntries (import s number)
         = [mkRaw (js "a") (js "a") undefined])
  /\ (alert (reader_onload (content array)) = None
      /\ stored_originalData (import s array)
         = JArr [JObj [(js "defaultMessage", JStr (js "x"))]]
      /\ stored_translationEntries (import s array)
         = [mkRaw (js "0") (js "0") (value (JStr (js "x")))])
  /\ (alert (reader_onload (content null)) = Some alert_text
      /\ stored_translationEntries s = [row]
      /\ Untyped.isEmptyNewEntry (stored_originalData s) row = returns false
      /\ stored_translationEntries (import s null) = [row]
      /\ stored_originalData (import s null) = JNull
      /\ Untyped.isEmptyNewEntry (stored_originalData (import s null)) row = throws).
Proof.
  repeat split; vm_compute; reflexivity.
Qed.

(** ** C2: Import of a well-formed file *)

(** C2.  When the text of the file parses to an object of the shape
    [{ key: { defaultMessage: text } }], the import replaces the entry list
    by one row per property of the parsed object, in its enumeration order,
    with the property name as id and as key and its [defaultMessage] as value,
    replaces the snapshot by the parsed object, displays the file's name and
    raises no alert. *)
Theorem C2_import_valid (st : State) (f : File) (j : json)
  (data : TranslationData) :
  JSON.parse (content f) = Some j ->
  as_TranslationData j = Some data ->
  upload st f
  = Some {| translationEntries :=
              List.map (fun p => {| id := fst p; key := fst p;
                                    defaultMessage := message_defaultMessage (snd p) |})
                       data;
            originalData := data;
            fileName := name f;
            isDownloadModalOpen := isDownloadModalOpen st;
            downloadFileName := downloadFileName st |}
  /\ alert (reader_onload (content f)) = None
  /\ exists props,
       Object_entries j = Some props
       /\ Forall2 (fun p q =>
                     fst p = fst q
                     /\ get_defaultMessage (snd q)
                        = Some (value (JStr (message_defaultMessage (snd p)))))
                  data props.
Proof.
  intros Hp Hd. destruct j; try discriminate Hd.
  destruct (typed_import _ Hd) as (raws & Hr & Ht & Hk).
  unfold upload, import, reader_onload. rewrite Hp. simpl Object_entries.
  cbv iota beta. rewrite Hr. unfold as_State.
  cbn [commit setFileName stored_of setOriginalData setTranslationEntries alert
       stored_originalData stored_translationEntries stored_fileName
       stored_isDownloadModalOpen stored_downloadFileName].
  rewrite Hd, Ht. repeat split.
  exists properties. split; [reflexivity | apply typed_values; exact Hd].
Qed.

Lemma C2_import_valid_witness :
  let f := mkFile (js "en.json")
             (json_text "{'greeting': {'defaultMessage': 'Hello'}, '7': {'defaultMessage': ''}}") in
  let data := [(js "7", mkMessage []); (js "greeting", mkMessage (js "Hello"))] in
  upload initialState f
  = Some {| translationEntries :=
              [mkEntry (js "7") (js "7") [];
               mkEntry (js "greeting") (js "greeting") (js "Hello")];
            originalData := data;
            fileName := js "en.json";
            isDownloadModalOpen := false;
            downloadFileName := [] |}.
Proof.
  intros f data.
  refine (proj1 (@C2_import_valid initialState f
            (JObj [(js "7", JObj [(js "defaultMessage", JStr [])]);
                   (js "greeting", JObj [(js "defaultMessage", JStr (js "Hello"))])])
            data _ _)); vm_compute; reflexivity.
Defined.

(** ** C3: The export set and the exported object *)

(** C3, evaluated where the code misses what the claim says.  A file with a
    property named "__proto__" is imported with a row for it, and that row is
    in the export set; but the assignment [acc["__proto__"] = ...] of the
    [reduce] creates no property, so the exported object and the downloaded
    text have the other property only.  The same happens to a loaded row
    whose key is edited to "__proto__": the download is [{}]. *)
Theorem C3_proto_key_is_lost :
  let f := mkFile (js "en.json")
             (json_text "{'__proto__': {'defaultMessage': 'x'}, 'a': {'defaultMessage': 'y'}}") in
  let proto := mkEntry (js "__proto__") (js "__proto__") (js "x") in
  let a := mkEntry (js "a") (js "a") (js "y") in
  let typed := [mkEntry (js "a") (js "__proto__") (js "y")] in
  (exists st,
      upload initialState f = Some st
      /\ translationEntries st = [proto; a]
      /\ originalData st
         = [(js "__proto__", mkMessage (js "x")); (js "a", mkMessage (js "y"))]
      /\ validEntries (originalData st) (translationEntries st) = [proto; a]
      /\ translationsObject (originalData st) (translationEntries st)
         = [(js "a", mkMessage (js "y"))]
      /\ JSON.parse (dataStr (snd (downloadJSON st)))
         = Some (JObj [(js "a", JObj [(js "defaultMessage", JStr (js "y"))])]))
  /\ (handlePropertyChange (js "a") (js "__proto__") [a] = typed
      /\ validEntries [(js "a", mkMessage (js "y"))] typed = typed
      /\ translationsObject [(js "a", mkMessage (js "y"))] typed = []
      /\ stringify (translationsObject [(js "a", mkMessage (js "y"))] typed)
         = js "{}").
Proof.
  split.
  - eexists. split; [vm_compute; reflexivity|]. repeat split.
  - repeat split.
Qed.

(** ** C4: isModified *)

(** C4 (as amended).  Right after a successful import [isModified] is false
    for every row.  After [setValue] gave a row a text that is not the
    snapshot's text for its id, [isModified] is true for it.  [setKey] does
    not change [isModified] of any row: the key is not compared. *)
Theorem C4_isModified :
  (forall st f st' e,
      upload st f = Some st' ->
      alert (reader_onload (content f)) = None ->
      In e (translationEntries st') ->
      isModified (originalData st') e = false)
  /\ (forall data entries i v e,
         In e (handleTranslationChange i v entries) ->
         id e = i ->
         original_defaultMessage data i <> Some v ->
         isModified data e = true)
  /\ (forall data entries i k,
         List.map (isModified data) (handlePropertyChange i k entries)
         = List.map (isModified data) entries).
Proof.
  split; [exact isModified_after_import|]. split.
  - intros data entries i v e Hin Hid Hne.
    unfold handleTranslationChange in Hin. apply in_map_iff in Hin.
    destruct Hin as (e0 & He & _).
    assert (Hv : defaultMessage e = v).
    { destruct (str_eqb (id e0) i) eqn:E; subst e; [reflexivity|].
      apply str_eqb_neq in E. contradiction. }
    unfold isModified. rewrite Hid, Hv.
    destruct (original_defaultMessage data i) as [t|]; [|reflexivity].
    simpl. destruct (str_eqb t v) eqn:E; [|reflexivity].
    apply str_eqb_eq in E. congruence.
  - intros data entries i k. unfold handlePropertyChange.
    rewrite map_map. apply map_ext. intros e.
    destruct (str_eqb (id e) i); reflexivity.
Qed.

Lemma C4_isModified_witness :
  let data := [(js "greeting", mkMessage (js "Hello"))] in
  let entries := [mkEntry (js "greeting") (js "greeting") (js "Hello")] in
  isModified data (mkEntry (js "greeting") (js "greeting") (js "Hola")) = true.
Proof.
  intros data entries.
  refine (proj1 (proj2 C4_isModified) data entries (js "greeting") (js "Hola") _ _ _ _).
  - left. reflexivity.
  - reflexivity.
  - discriminate.
Defined.

(** C4, the claim as stated fails: a loaded row whose key is changed by
    setKey is still reported as not modified. *)
Lemma C4_counterexample :
  let f := mkFile (js "en.json") (json_text "{'a': {'defaultMessage': 'x'}}") in
  exists st',
    upload initialState f = Some st'
    /\ alert (reader_onload (content f)) = None
    /\ List.map key (translationEntries st') = [js "a"]
    /\ List.map key (handlePropertyChange (js "a") (js "b") (translationEntries st'))
       = [js "b"]
    /\ List.map (isModified (originalData st'))
         (handlePropertyChange (js "a") (js "b") (translationEntries st'))
       = [false].
Proof.
  eexists. split; [vm_compute; reflexivity|]. repeat split.
Qed.

(** ** C5: addRow and the ids of the rows *)

(** C5 (as amended).  addRow appends, after the last row, a row with empty
    key, empty value and the decimal text of the clock reading as id.  In
    every state reached from the initial one by uploads, edits, clears and
    addRows the ids of the rows are distinct, provided that each addRow took
    place at a clock reading whose text was not the id of a row then. *)
Theorem C5_ids_unique (actions : list Action) (st : State) :
  run initialState actions = Some st ->
  clocks_fresh initialState actions ->
  NoDup (List.map id (translationEntries st))
  /\ forall now,
       addNewTranslation now (translationEntries st)
       = translationEntries st
         ++ [{| id := toString now; key := []; defaultMessage := [] |}].
Proof.
  intros Hrun Hfresh. split; [|reflexivity].
  apply (run_ids_unique actions initialState); auto. constructor.
Qed.

Lemma C5_ids_unique_witness :
  let f := mkFile (js "en.json") (json_text "{'a': {'defaultMessage': 'x'}}") in
  let st := {| translationEntries :=
                 [mkEntry (js "a") (js "renamed") (js "x");
                  mkEntry (js "1700000000000") [] [];
                  mkEntry (js "1700000000001") [] (js "y")];
               originalData := [(js "a", mkMessage (js "x"))];
               fileName := js "en.json";
               isDownloadModalOpen := false;
               downloadFileName := [] |} in
  NoDup (List.map id (translationEntries st)).
Proof.
  intros f st.
  refine (proj1 (@C5_ids_unique
                   [Upload f; AddRow 1700000000000; SetKey (js "a") (js "renamed");
                    AddRow 1700000000001; SetValue (js "1700000000001") (js "y")]
                   st _ _)).
  - vm_compute. reflexivity.
  - simpl. repeat split.
    + vm_compute. intros [H|[]]. discriminate H.
    + vm_compute. intros [H|[H|[]]]; discriminate H.
Defined.

(** C5, the claim as stated fails: two addRows at the same clock reading
    give two rows with the same id, and so does an addRow at a reading whose
    text is a key of the loaded file. *)
Lemma C5_counterexample :
  let f := mkFile (js "en.json") (json_text "{'a': {'defaultMessage': 'x'}}") in
  let g := mkFile (js "ids.json")
             (json_text "{'1700000000000': {'defaultMessage': 'x'}}") in
  (exists st,
      run initialState [Upload f; AddRow 1700000000000; AddRow 1700000000000]
      = Some st
      /\ List.map id (translationEntries st)
         = [js "a"; js "1700000000000"; js "1700000000000"])
  /\ (exists st,
         run initialState [Upload g; AddRow 1700000000000] = Some st
         /\ List.map id (translationEntries st)
            = [js "1700000000000"; js "1700000000000"]).
Proof.
  split; eexists; (split; [vm_compute; reflexivity|]); reflexivity.
Qed.

(** ** C6: Export followed by import *)

(** C6 (as amended).  For an entry list with no new-incomplete row, no key
    twice, no key "__proto__" and its keys in enumeration order (the array
    indices, if any, first and ascending), importing the exported text
    succeeds and gives the same (key, value) pairs in the same order. *)
Theorem C6_round_trip (st st0 : State) (n : jsstring) :
  (forall e, In e (translationEntries st) ->
             isEmptyNewEntry (originalData st) e = false) ->
  NoDup (List.map key (translationEntries st)) ->
  ~ In (js "__proto__") (List.map key (translationEntries st)) ->
  in_enumeration_order (List.map key (translationEntries st)) ->
  exists st',
    upload st0 (mkFile n (dataStr (snd (downloadJSON st)))) = Some st'
    /\ alert (reader_onload (dataStr (snd (downloadJSON st)))) = None
    /\ List.map (fun e => (key e, defaultMessage e)) (translationEntries st')
       = List.map (fun e => (key e, defaultMessage e)) (translationEntries st).
Proof.
  intros Hc Hnd Hp Hord.
  set (entries := translationEntries st) in *.
  set (o := List.map (fun e => (key e, mkMessage (defaultMessage e))) entries).
  assert (Ho : translationsObject (originalData st) entries = o).
  { unfold translationsObject.
    unfold validEntries. rewrite filter_all.
    - apply (reduce_in_order entries []); assumption.
    - intros e He. specialize (Hc e He). unfold isEmptyNewEntry in Hc.
      destruct (isNewTranslation (originalData st) e); [|reflexivity].
      simpl in *. apply orb_false_iff in Hc. destruct Hc as [-> ->]. reflexivity. }
  assert (Hk : keys (json_of_data o) = List.map key entries).
  { unfold keys, json_of_data, o. rewrite !map_map. reflexivity. }
  assert (Hparse : JSON.parse (stringify o) = Some (JObj (json_of_data o))).
  { rewrite parse_stringify. unfold define_step.
    rewrite (define_in_order (json_of_data o) []); [reflexivity| |];
      simpl; rewrite Hk; assumption. }
  simpl. fold entries. rewrite Ho.
  destruct (@upload_valid st0 (mkFile n (stringify o)) _ o Hparse
              (as_TranslationData_json_of_data o)) as [Hu Ha].
  eexists. split; [exact Hu|]. split; [exact Ha|].
  simpl. unfold o. rewrite !map_map. reflexivity.
Qed.

Lemma C6_round_trip_witness :
  let st := {| translationEntries :=
                 [mkEntry (js "3") (js "3") (js "three");
                  mkEntry (js "7") (js "10") [];
                  mkEntry (js "greeting") (js "greeting") (js "Hola");
                  mkEntry (js "1700000000000") (js "app.title") (js "My App")];
               originalData :=
                 [(js "3", mkMessage (js "three")); (js "7", mkMessage (js "seven"));
                  (js "greeting", mkMessage (js "Hello"))];
               fileName := js "en.json";
               isDownloadModalOpen := true;
               downloadFileName := js "en" |} in
  exists st',
    upload initialState (mkFile (js "en.json") (dataStr (snd (downloadJSON st))))
    = Some st'
    /\ alert (reader_onload (dataStr (snd (downloadJSON st)))) = None
    /\ List.map (fun e => (key e, defaultMessage e)) (translationEntries st')
       = [(js "3", js "three"); (js "10", []); (js "greeting", js "Hola");
          (js "app.title", js "My App")].
Proof.
  intros st. refine (@C6_round_trip st initialState (js "en.json") _ _ _ _).
  - intros e [<-|[<-|[<-|[<-|[]]]]]; reflexivity.
  - repeat constructor; simpl; intros H;
      repeat (destruct H as [H|H]; [discriminate H|]); exact H.
  - simpl. intros H.
    repeat (destruct H as [H|H]; [discriminate H|]). exact H.
  - repeat constructor; vm_compute; discriminate.
Defined.

(** C6, the claim as stated fails.  A list without new-incomplete rows and
    without duplicate keys comes back in another order when a key that is an
    array index stands after another key, and comes back without the row
    whose key is "__proto__". *)
Lemma C6_counterexample :
  let data := [(js "b", mkMessage (js "x"))] in
  let st := {| translationEntries :=
                 [mkEntry (js "b") (js "b") (js "x");
                  mkEntry (js "1700000000000") (js "1") (js "y")];
               originalData := data;
               fileName := js "en.json";
               isDownloadModalOpen := true;
               downloadFileName := js "en" |} in
  let st2 := {| translationEntries := [mkEntry (js "b") (js "__proto__") (js "x")];
                originalData := data;
                fileName := js "en.json";
                isDownloadModalOpen := true;
                downloadFileName := js "en" |} in
  (List.map (isEmptyNewEntry data) (translationEntries st) = [false; false]
   /\ List.map key (translationEntries st) = [js "b"; js "1"]
   /\ option_map (fun st' => List.map (fun e => (key e, defaultMessage e))
                                      (translationEntries st'))
        (upload initialState
           (mkFile (js "en.json") (dataStr (snd (downloadJSON st)))))
      = Some [(js "1", js "y"); (js "b", js "x")])
  /\ (List.map (isEmptyNewEntry data) (translationEntries st2) = [false]
      /\ option_map translationEntries
           (upload initialState
              (mkFile (js "en.json") (dataStr (snd (downloadJSON st2)))))
         = Some []).
Proof.
  repeat split; vm_compute; reflexivity.
Qed.

(** ** C7: clearAllValues *)

(** C7.  clearAllValues empties the value of every row whose value is not
    empty, returns every row whose value is empty as it is, and applying it
    twice gives the list that applying it once gives. *)
Theorem C7_clearAllValues_idempotent (entries : list TranslationEntry) :
  List.length (clearAllValues entries) = List.length entries
  /\ (forall n e, nth_error entries n = Some e ->
        nth_error (clearAllValues entries) n
        = Some (if str_eqb (defaultMessage e) [] then e
                else mkEntry (id e) (key e) []))
  /\ clearAllValues (clearAllValues entries) = clearAllValues entries.
Proof.
  unfold clearAllValues. repeat split.
  - apply length_map.
  - intros n e H. rewrite nth_error_map, H. simpl. f_equal.
    destruct e as [i k [|c v]]; reflexivity.
  - rewrite map_map. apply map_ext. intros e.
    destruct e as [i k [|c v]]; reflexivity.
Qed.

(** ** C8: File names *)



(** ** C9: Export leaves the document alone *)

(** C9.  An export changes neither the entry list, nor the snapshot, nor the
    loaded file name (nor the name typed in the dialog): it closes the
    dialog and that is its only change of the state. *)
Theorem C9_export_frame (st : State) :
  let st' := fst (downloadJSON st) in
  translationEntries st' = translationEntries st
  /\ originalData st' = originalData st
  /\ fileName st' = fileName st
  /\ downloadFileName st' = downloadFileName st
  /\ isDownloadModalOpen st' = false
  /\ st' = setIsDownloadModalOpen false st.
Proof. repeat split. Qed.

(** ** C10: Edits under an unknown id *)

(** C10.  An id that no row of the list has is a silent no-op for setKey,
    setValue and clearValue: each returns the list as it was. *)
Theorem C10_unknown_id_is_noop (entries : list TranslationEntry)
  (i k v : jsstring) :
  ~ In i (List.map id entries) ->
  handlePropertyChange i k entries = entries
  /\ handleTranslationChange i v entries = entries
  /\ handleClearTranslation i entries = entries.
Proof.
  intros H. unfold handlePropertyChange, handleTranslationChange, handleClearTranslation.
  repeat split.
  - apply (map_id_when_unmatched (fun e => set_key e k)); assumption.
  - apply (map_id_when_unmatched (fun e => set_defaultMessage e v)); assumption.
  - apply (map_id_when_unmatched (fun e => set_defaultMessage e [])); assumption.
Qed.

Lemma C10_unknown_id_witness :
  let entries := [mkEntry (js "a") (js "a") (js "x"); mkEntry (js "b") (js "k") []] in
  handlePropertyChange (js "c") (js "new") entries = entries
  /\ handleTranslationChange (js "c") (js "text") entries = entries
  /\ handleClearTranslation (js "c") entries = entries.
Proof.
  apply C10_unknown_id_is_noop.
  simpl. intros [H | [H | []]]; discriminate H.
Defined.

(* ================================================================== *)
(** * Further properties *)


(** [JSON.parse] as modelled refuses no text for want of fuel: a value that
    some amount of fuel reads from the whole text is what [parse] returns. *)
Theorem parse_fuel_adequate (n : nat) (text rest : jsstring) (v : json) :
  parse_value n text = Some (v, rest) ->
  skip_ws rest = [] ->
  JSON.parse text = Some v.
Proof.
  intros H Hrest. unfold JSON.parse.
  rewrite (parse_value_fuel _ _ H), Hrest. reflexivity.
Qed.

Lemma parse_fuel_adequate_witness :
  JSON.parse (json_text "[[1], {'a': [true]}] ")
  = Some (JArr [JArr [JNum (js "1")]; JObj [(js "a", JArr [JBool true])]]).
Proof.
  apply (@parse_fuel_adequate 9 _ [32%N]); vm_compute; reflexivity.
Defined.

(** ** Row marks *)

Lemma original_defaultMessage_spec (data : TranslationData) (i t : jsstring) :
  original_defaultMessage data i = Some t
  <-> exists m, own_lookup data i = Some m /\ message_defaultMessage m = t.
Proof.
  unfold original_defaultMessage. destruct (own_lookup data i) as [m|].
  - split.
    + intros H. injection H as <-. eauto.
    + intros (m' & Hm & <-). injection Hm as ->. reflexivity.
  - split; [discriminate | intros (m & H & _); discriminate H].
Qed.

Lemma isModified_false_iff (data : TranslationData) (x : TranslationEntry) :
  isModified data x = false
  <-> original_defaultMessage data (id x) = Some (defaultMessage x).
Proof.
  unfold isModified, original_defaultMessage, hasOwnProperty.
  destruct (own_lookup data (id x)) as [m|]; simpl.
  - rewrite orb_false_r, negb_false_iff, str_eqb_eq.
    split; [intros ->; reflexivity | intros H; injection H; auto].
  - split; discriminate.
Qed.

Lemma isNewTranslation_iff (data : TranslationData) (e : TranslationEntry) :
  isNewTranslation data e = true <-> ~ In (id e) (keys data).
Proof.
  unfold isNewTranslation. rewrite negb_true_iff. apply hasOwnProperty_false.
Qed.

Lemma original_of_new (data : TranslationData) (e : TranslationEntry) :
  isNewTranslation data e = true -> original_defaultMessage data (id e) = None.
Proof.
  unfold isNewTranslation, original_defaultMessage, hasOwnProperty.
  destruct (own_lookup data (id e)); [discriminate | reflexivity].
Qed.

Lemma original_of_loaded (data : TranslationData) (e : TranslationEntry) :
  isNewTranslation data e = false ->
  exists t, original_defaultMessage data (id e) = Some t.
Proof.
  unfold isNewTranslation, original_defaultMessage, hasOwnProperty.
  destruct (own_lookup data (id e)); [eauto | discriminate].
Qed.

(** A row counts as modified exactly when its id is not a property of the
    snapshot or the snapshot's text under its id is not the row's value.  So
    a new row is always modified, and giving a loaded row its loaded text
    back by setValue removes the mark. *)
Theorem modified_mark (data : TranslationData) (e : TranslationEntry) :
  (isModified data e = false
   <-> exists m, own_lookup data (id e) = Some m
                 /\ message_defaultMessage m = defaultMessage e)
  /\ (isNewTranslation data e = true -> isModified data e = true)
  /\ (forall entries v e',
        In e' (handleTranslationChange (id e) v entries) ->
        id e' = id e ->
        original_defaultMessage data (id e) = Some v ->
        isModified data e' = false).
Proof.
  split; [|split].
  - rewrite isModified_false_iff. apply original_defaultMessage_spec.
  - intros H. destruct (isModified data e) eqn:E; [reflexivity|].
    apply isModified_false_iff in E. rewrite (original_of_new _ _ H) in E.
    discriminate E.
  - intros entries v e' Hin Hid Ho. apply isModified_false_iff.
    rewrite Hid, Ho. f_equal.
    unfold handleTranslationChange in Hin. apply in_map_iff in Hin.
    destruct Hin as (e0 & He & _).
    destruct (str_eqb (id e0) (id e)) eqn:E; subst e'; [reflexivity|].
    apply str_eqb_neq in E. contradiction.
Qed.

(** The background of a row is green exactly when its id is not a property
    of the snapshot, blue exactly when the snapshot has another text under
    its id, and none exactly when the snapshot has the row's value under its
    id.  Only green rows are dimmed. *)
Theorem row_background (data : TranslationData) (e : TranslationEntry) :
  (rowBackground data e = green <-> ~ In (id e) (keys data))
  /\ (rowBackground data e = blue
      <-> exists t, original_defaultMessage data (id e) = Some t
                    /\ t <> defaultMessage e)
  /\ (rowBackground data e = plain
      <-> original_defaultMessage data (id e) = Some (defaultMessage e))
  /\ (rowDimmed data e = true -> rowBackground data e = green).
Proof.
  pose proof (isNewTranslation_iff data e) as Hnew.
  unfold rowBackground, rowDimmed, isEmptyNewEntry.
  destruct (isNewTranslation data e) eqn:En.
  - rewrite (original_of_new _ _ En). repeat split; try discriminate; try tauto.
    intros (t & H & _). discriminate H.
  - destruct (original_of_loaded _ _ En) as (t & Ht).
    assert (Hin : In (id e) (keys data)).
    { destruct (in_dec (list_eq_dec N.eq_dec) (id e) (keys data)) as [H|H]; [exact H|].
      apply Hnew in H. discriminate H. }
    destruct (isModified data e) eqn:Em.
    + assert (Hne : t <> defaultMessage e).
      { intros ->. apply isModified_false_iff in Ht. congruence. }
      repeat split; try discriminate; try tauto; eauto.
      intros H. rewrite H in Ht. injection Ht as <-. congruence.
    + apply isModified_false_iff in Em. repeat split; try discriminate; try tauto.
      intros (t' & Ht' & Hne). congruence.
Qed.

(** ** White space *)

Lemma trimStart_nil (s : jsstring) :
  trimStart s = [] <-> Forall (fun c => is_white_space c = true) s.
Proof.
  induction s as [|c s IH]; simpl.
  - split; [constructor | reflexivity].
  - destruct (is_white_space c) eqn:E.
    + rewrite IH. split; [constructor; assumption | inversion 1; assumption].
    + split; [discriminate | inversion 1; congruence].
Qed.

Lemma trimStart_head (s : jsstring) (c : code_unit) (t : jsstring) :
  trimStart s = c :: t -> is_white_space c = false.
Proof.
  induction s as [|d s IH]; simpl; [discriminate|].
  destruct (is_white_space d) eqn:E; [exact IH|].
  intros H. injection H as -> _. exact E.
Qed.

Lemma trim_nil (s : jsstring) :
  trim s = [] <-> Forall (fun c => is_white_space c = true) s.
Proof.
  unfold trim. split.
  - intros H. apply (f_equal (@rev _)) in H. rewrite rev_involutive in H.
    simpl in H. apply trimStart_nil in H. apply Forall_rev in H.
    rewrite rev_involutive in H.
    destruct (trimStart s) as [|c t] eqn:E; [apply trimStart_nil; exact E|].
    apply trimStart_head in E. inversion H; congruence.
  - intros H. apply trimStart_nil in H. rewrite H. reflexivity.
Qed.

(** The rows left out of the export are exactly the dimmed rows: the new
    rows whose key or value holds nothing but white space. *)
Theorem dimmed_rows_are_not_exported (data : TranslationData)
  (entries : list TranslationEntry) :
  validEntries data entries
  = filter (fun e => negb (rowDimmed data e)) entries
  /\ forall e,
       rowDimmed data e = true
       <-> ~ In (id e) (keys data)
           /\ (Forall (fun c => is_white_space c = true) (key e)
               \/ Forall (fun c => is_white_space c = true) (defaultMessage e)).
Proof.
  split.
  - unfold validEntries, rowDimmed, isEmptyNewEntry. apply filter_ext.
    intros e. destruct (isNewTranslation data e); simpl; [|reflexivity].
    now rewrite negb_orb.
  - intros e. unfold rowDimmed, isEmptyNewEntry, isNewTranslation, is_blank.
    rewrite andb_true_iff, orb_true_iff, negb_true_iff, hasOwnProperty_false.
    rewrite !str_eqb_eq, !trim_nil. tauto.
Qed.

(** ** How the edits compose *)

(** Edits of the same field under the same id: the last one wins.  An edit
    of a key and an edit of a value commute, and so do two edits of a value
    under different ids.  clearValue is setValue with the empty text, and
    clearAllValues after any setValue or clearValue is clearAllValues. *)
Theorem edits_compose (entries : list TranslationEntry) (i j k k' v v' : jsstring) :
  handleTranslationChange i v' (handleTranslationChange i v entries)
  = handleTranslationChange i v' entries
  /\ handlePropertyChange i k' (handlePropertyChange i k entries)
     = handlePropertyChange i k' entries
  /\ handlePropertyChange i k (handleTranslationChange j v entries)
     = handleTranslationChange j v (handlePropertyChange i k entries)
  /\ (i <> j ->
      handleTranslationChange i v (handleTranslationChange j v' entries)
      = handleTranslationChange j v' (handleTranslationChange i v entries))
  /\ handleClearTranslation i entries = handleTranslationChange i [] entries
  /\ clearAllValues (handleTranslationChange i v entries) = clearAllValues entries
  /\ clearAllValues (handleClearTranslation i entries) = clearAllValues entries
  /\ handleClearTranslation i (clearAllValues entries) = clearAllValues entries.
Proof.
  unfold handleTranslationChange, handlePropertyChange, handleClearTranslation,
    clearAllValues.
  repeat split; try intros Hij; rewrite ?map_map; apply map_ext;
    intros [ei ek ev]; cbn [id key defaultMessage set_key set_defaultMessage];
    repeat match goal with
           | |- context [str_eqb ei ?x] =>
               lazymatch goal with
               | H : str_eqb ei x = _ |- _ => rewrite H
               | _ => destruct (str_eqb ei x) eqn:?
               end;
               cbn [id key defaultMessage set_key set_defaultMessage]
           end;
    try reflexivity; try (destruct ev; reflexivity).
  repeat match goal with H : str_eqb _ _ = true |- _ => apply str_eqb_eq in H end.
  all: try congruence.
  - destruct v, ev; reflexivity.
  - destruct ev; simpl; destruct (str_eqb ei i); reflexivity.
Qed.

Lemma edits_compose_witness :
  let entries := [mkEntry (js "a") (js "a") (js "x"); mkEntry (js "b") (js "b") []] in
  handleTranslationChange (js "a") (js "1") (handleTranslationChange (js "b") (js "2") entries)
  = handleTranslationChange (js "b") (js "2") (handleTranslationChange (js "a") (js "1") entries).
Proof.
  intros entries.
  refine (proj1 (proj2 (proj2 (proj2
            (@edits_compose entries (js "a") (js "b") [] [] (js "1") (js "2"))))) _).
  discriminate.
Defined.

(** ** The clear buttons *)

(** The column's clear button is rendered exactly when clearAllValues would
    change the list, and is not rendered after it was used.  A row's clear
    button is rendered exactly when the row's value is not empty. *)
Theorem clear_buttons (entries : list TranslationEntry) :
  (showClearAll entries = false <-> clearAllValues entries = entries)
  /\ showClearAll (clearAllValues entries) = false
  /\ (forall e, showClearButton e = true <-> defaultMessage e <> [])
  /\ (showClearAll entries = true
      <-> exists e, In e entries /\ defaultMessage e <> []).
Proof.
  unfold showClearAll, clearAllValues, showClearButton. repeat split.
  - induction entries as [|e l IH]; simpl; [reflexivity|].
    intros H. apply orb_false_iff in H. destruct H as [He Hl].
    rewrite He. f_equal. apply IH. exact Hl.
  - induction entries as [|e l IH]; simpl; [reflexivity|].
    intros H. injection H as He Hl. apply orb_false_iff. split; [|apply IH; exact Hl].
    destruct e as [ei ek [|c ev]]; [reflexivity | discriminate He].
  - induction entries as [|e l IH]; simpl; [reflexivity|].
    rewrite IH, orb_false_r. destruct e as [ei ek [|c ev]]; reflexivity.
  - destruct e as [ei ek [|c ev]]; simpl; [discriminate | discriminate].
  - destruct e as [ei ek [|c ev]]; simpl; [congruence | reflexivity].
  - intros H. apply existsb_exists in H. destruct H as (e & Hin & He).
    exists e. split; [exact Hin|]. destruct (defaultMessage e); [discriminate He | discriminate].
  - intros (e & Hin & He). apply existsb_exists. exists e. split; [exact Hin|].
    destruct (defaultMessage e); [congruence | reflexivity].
Qed.

(** ** Rows are only appended *)

Lemma act_without_upload (st : State) (a : Action) :
  is_upload a = false ->
  exists st',
    act st a = Some st'
    /\ originalData st' = originalData st
    /\ fileName st' = fileName st
    /\ List.map id (translationEntries st')
       = List.map id (translationEntries st) ++ List.map toString (clocks [a]).
Proof.
  intros Ha. destruct a; try discriminate Ha; simpl; eexists;
    (split; [reflexivity|]); simpl; rewrite ?app_nil_r; repeat split.
  - unfold handlePropertyChange.
    apply (map_id_edit (fun e => set_key e newKey)); auto.
  - unfold handleTranslationChange.
    apply (map_id_edit (fun e => set_defaultMessage e newTranslation)); auto.
  - unfold handleClearTranslation.
    apply (map_id_edit (fun e => set_defaultMessage e [])); auto.
  - unfold clearAllValues.
    apply (map_id_edit (fun e => set_defaultMessage e [])); auto.
  - unfold addNewTranslation. now rewrite map_app.
Qed.

Lemma clocks_app (l1 l2 : list Action) : clocks (l1 ++ l2) = clocks l1 ++ clocks l2.
Proof.
  induction l1 as [|a l1 IH]; simpl; [reflexivity|].
  destruct a; simpl; rewrite ?IH; reflexivity.
Qed.

(** Without an upload nothing fails, the snapshot and the displayed file name
    stay what they are, no row is removed or moved, and the rows that
    appear are those of the addRows, at the end and in their order: the ids
    afterwards are the ids before followed by the texts of the clock
    readings. *)
Theorem rows_are_only_appended (actions : list Action) (st : State) :
  forallb (fun a => negb (is_upload a)) actions = true ->
  exists st',
    run st actions = Some st'
    /\ originalData st' = originalData st
    /\ fileName st' = fileName st
    /\ List.map id (translationEntries st')
       = List.map id (translationEntries st) ++ List.map toString (clocks actions).
Proof.
  revert st. induction actions as [|a rest IH]; intros st H.
  - exists st. simpl. rewrite app_nil_r. repeat split.
  - simpl in H. apply andb_true_iff in H. destruct H as [Ha Hrest].
    apply negb_true_iff in Ha.
    destruct (act_without_upload st a Ha) as (st1 & Hact & Hd & Hf & Hids).
    destruct (IH st1 Hrest) as (st' & Hrun & Hd' & Hf' & Hids').
    exists st'. simpl run. rewrite Hact. split; [exact Hrun|].
    split; [congruence|]. split; [congruence|].
    rewrite Hids', Hids, <- app_assoc, <- map_app.
    change (a :: rest) with ([a] ++ rest). now rewrite clocks_app.
Qed.

Lemma rows_are_only_appended_witness :
  exists st',
    run initialState
        [AddRow 5; SetKey (js "5") (js "k"); ClearAll; AddRow 7; DownloadClick; Confirm]
    = Some st'
    /\ originalData st' = []
    /\ fileName st' = []
    /\ List.map id (translationEntries st') = [js "5"; js "7"].
Proof.
  refine (@rows_are_only_appended
            [AddRow 5; SetKey (js "5") (js "k"); ClearAll; AddRow 7; DownloadClick; Confirm]
            initialState _).
  reflexivity.
Defined.

(** ** A new row and the export *)

(** A row added at a clock reading whose text is not a property of the
    snapshot is new, dimmed and modified, and the export is what it was
    without the row.  When the text is a property of the snapshot the row
    counts as loaded and joins the export set, with the empty key. *)
Theorem addRow_and_export (data : TranslationData)
  (entries : list TranslationEntry) (now : Z) :
  let row := {| id := toString now; key := []; defaultMessage := [] |} in
  (~ In (toString now) (keys data) ->
   rowDimmed data row = true
   /\ isModified data row = true
   /\ validEntries data (addNewTranslation now entries) = validEntries data entries
   /\ translationsObject data (addNewTranslation now entries)
      = translationsObject data entries)
  /\ (In (toString now) (keys data) ->
      validEntries data (addNewTranslation now entries)
      = validEntries data entries ++ [row]).
Proof.
  intros row. unfold translationsObject, validEntries, addNewTranslation.
  rewrite filter_app. simpl filter. fold row. split.
  - intros H. apply hasOwnProperty_false in H.
    unfold rowDimmed, isEmptyNewEntry, isModified, isNewTranslation,
      original_defaultMessage. simpl id.
    unfold hasOwnProperty in *. destruct (own_lookup data (toString now)); [discriminate H|].
    simpl. rewrite app_nil_r. repeat split.
  - intros H. apply hasOwnProperty_In in H. unfold isNewTranslation. simpl id.
    rewrite H. reflexivity.
Qed.

Lemma addRow_and_export_witness :
  let data := [(js "a", mkMessage (js "x"))] in
  let entries := [mkEntry (js "a") (js "a") (js "y")] in
  translationsObject data (addNewTranslation 1700000000000 entries)
  = translationsObject data entries.
Proof.
  intros data entries.
  refine (proj2 (proj2 (proj2 (proj1
            (@addRow_and_export data entries 1700000000000) _)))).
  simpl. intros [H|[]]. discriminate H.
Defined.

(** ** The file name through the dialog *)

Lemma extension_is_first_occurrence (base a b : jsstring) :
  (forall x y, base <> x ++ js ".json" ++ y) ->
  base ++ js ".json" = a ++ js ".json" ++ b ->
  List.length base <= List.length a.
Proof.
  intros Hno H.
  destruct (Nat.le_gt_cases (List.length base) (List.length a)) as [L|L]; [exact L|].
  exfalso.
  assert (Hsplit : exists x, base = a ++ x /\ x <> []).
  { exists (skipn (List.length a) base). split.
    - rewrite <- (firstn_skipn (List.length a) base) at 1. f_equal.
      apply (f_equal (firstn (List.length a))) in H.
      rewrite !firstn_app in H. rewrite Nat.sub_diag in H.
      replace (List.length a - List.length base) with 0 in H by lia.
      simpl in H. rewrite !app_nil_r in H. rewrite firstn_all in H. exact H.
    - intros E. apply (f_equal (@List.length _)) in E.
      rewrite length_skipn in E. simpl in E. lia. }
  destruct Hsplit as (x & -> & Hx).
  rewrite <- app_assoc in H. apply app_inv_head in H.
  change (js ".json") with [46; 106; 115; 111; 110]%N in *.
  destruct x as [|x1 [|x2 [|x3 [|x4 [|x5 x']]]]]; simpl in H;
    try congruence; try (injection H; intros; subst; discriminate).
  injection H as -> -> -> -> -> _.
  apply (Hno a x'). reflexivity.
Qed.

(** Opening the dialog and confirming the proposed name downloads the loaded
    file under its own name when that name is a base without ".json"
    followed by the extension ".json"; with nothing loaded the name is
    "translations.json".  Whatever name is chosen, the downloaded name ends
    in ".json", and choosing a downloaded name again gives the same name. *)
Theorem file_name_through_dialog (st : State) :
  let confirmed := download (snd (downloadJSON (handleDownloadClick st))) in
  (forall base,
      fileName st = base ++ js ".json" ->
      base <> [] ->
      (forall x y, base <> x ++ js ".json" ++ y) ->
      confirmed = fileName st)
  /\ (fileName st = [] -> confirmed = js "translations.json")
  /\ (forall chosen, exists stem, finalFileName chosen = stem ++ js ".json")
  /\ (forall chosen, finalFileName (finalFileName chosen) = finalFileName chosen).
Proof.
  cbv zeta. unfold downloadJSON, handleDownloadClick.
  cbn [snd download downloadFileName fileName]. repeat split.
  - intros base Hf Hne Hno. rewrite Hf.
    replace (base ++ js ".json") with (base ++ js ".json" ++ [])
      by (now rewrite app_nil_r).
    rewrite replace_first_found.
    + rewrite app_nil_r. destruct base as [|c base']; [congruence|].
      unfold finalFileName. rewrite replace_at_end_other; [reflexivity|].
      intros b Hb. apply (Hno b []). rewrite app_nil_r. exact Hb.
    + intros a' b' H. rewrite app_nil_r in H.
      eapply extension_is_first_occurrence; eassumption.
  - intros ->. reflexivity.
  - intros chosen. eexists. reflexivity.
  - intros chosen. unfold finalFileName. now rewrite replace_at_end_suffix.
Qed.

Lemma file_name_through_dialog_witness :
  let st := handleFileUpload initialState (Some (mkFile (js "en.json") [])) in
  download (snd (downloadJSON (handleDownloadClick st))) = js "en.json".
Proof.
  intros st.
  refine (proj1 (file_name_through_dialog st) (js "en") _ _ _).
  - reflexivity.
  - discriminate.
  - intros x y H. apply (f_equal (@List.length _)) in H.
    rewrite !length_app in H. change (List.length (js ".json")) with 5 in H.
    change (List.length (js "en")) with 2 in H. lia.
Defined.

(** ** Clock readings as ids *)

Lemma uint_units_inj (d d' : Decimal.uint) :
  uint_units d = uint_units d' -> d = d'.
Proof.
  revert d'. induction d; intros d' H; destruct d'; simpl in H;
    try discriminate H; try reflexivity;
    injection H as H; f_equal; apply IHd; exact H.
Qed.

Lemma uint_units_digits (d : Decimal.uint) :
  Forall (fun c => is_digit c = true) (uint_units d).
Proof. induction d; simpl; constructor; auto. Qed.

Lemma toString_inj (a b : Z) : toString a = toString b -> a = b.
Proof.
  unfold toString. intros H.
  rewrite <- (DecimalZ.of_to a), <- (DecimalZ.of_to b).
  destruct (Z.to_int a) as [d|d], (Z.to_int b) as [d'|d'].
  - apply uint_units_inj in H. now subst.
  - pose proof (uint_units_digits d) as F. rewrite H in F.
    inversion F as [|? ? Hc _]. discriminate Hc.
  - pose proof (uint_units_digits d') as F. rewrite <- H in F.
    inversion F as [|? ? Hc _]. discriminate Hc.
  - injection H as H. apply uint_units_inj in H. now subst.
Qed.

Lemma clocks_fresh_when_distinct (actions : list Action) :
  forall st,
    NoDup (clocks actions) ->
    (forall t, In t (clocks actions) ->
               ~ In (toString t) (List.map id (translationEntries st))) ->
    (forall t f, In t (clocks actions) -> In (Upload f) actions ->
                 ~ In (toString t) (file_keys f)) ->
    clocks_fresh st actions.
Proof.
  induction actions as [|a rest IH]; intros st Hnd Hids Hfiles; simpl; [exact I|].
  assert (Hrest_files : forall t f, In t (clocks rest) -> In (Upload f) rest ->
                                    ~ In (toString t) (file_keys f)).
  { intros t f Ht Hf. apply Hfiles; [|right; exact Hf].
    destruct a; simpl; auto. }
  destruct a; simpl in *;
    try (split; [exact I|]; apply IH; auto; fail).
  - (* Upload *)
    split; [exact I|].
    destruct (upload st f) as [st'|] eqn:E; [|exact I].
    apply IH; auto. intros t Ht.
    destruct (upload_inv _ _ E) as [(props & Hp & Hd & _ & ->)|(_ & _ & ->)].
    + simpl. rewrite ids_of_import.
      destruct (typed_import _ Hd) as (_ & _ & _ & ->).
      specialize (Hfiles t f Ht (or_introl eq_refl)).
      unfold file_keys in Hfiles. rewrite Hp in Hfiles. exact Hfiles.
    + simpl. apply Hids. exact Ht.
  - split; [exact I|]. apply IH; auto. intros t Ht. simpl.
    unfold handlePropertyChange.
    rewrite (map_id_edit (fun e => set_key e newKey)); auto.
  - split; [exact I|]. apply IH; auto. intros t Ht. simpl.
    unfold handleTranslationChange.
    rewrite (map_id_edit (fun e => set_defaultMessage e newTranslation)); auto.
  - split; [exact I|]. apply IH; auto. intros t Ht. simpl.
    unfold handleClearTranslation.
    rewrite (map_id_edit (fun e => set_defaultMessage e [])); auto.
  - split; [exact I|]. apply IH; auto. intros t Ht. simpl.
    unfold clearAllValues.
    rewrite (map_id_edit (fun e => set_defaultMessage e [])); auto.
  - (* AddRow *)
    inversion Hnd as [|? ? Hnow Hnd']; subst.
    split; [apply Hids; left; reflexivity|].
    apply IH; auto. intros t Ht. simpl. unfold addNewTranslation.
    rewrite map_app, in_app_iff. simpl. intros [H|[H|[]]].
    + apply (Hids t); auto.
    + apply toString_inj in H. subst t. contradiction.
Qed.

(** Different clock readings give different ids, and the ids of the rows
    stay distinct in every run from the initial state in which no two addRows
    share a clock reading and no uploaded file has a property named by the
    decimal text of an addRow's clock reading. *)
Theorem distinct_clocks_give_distinct_ids (actions : list Action) (st : State) :
  run initialState actions = Some st ->
  NoDup (clocks actions) ->
  (forall t f, In t (clocks actions) -> In (Upload f) actions ->
               ~ In (toString t) (file_keys f)) ->
  NoDup (List.map id (translationEntries st))
  /\ forall a b, toString a = toString b -> a = b.
Proof.
  intros Hrun Hnd Hfiles. split; [|exact toString_inj].
  apply (run_ids_unique actions initialState); auto.
  - constructor.
  - apply clocks_fresh_when_distinct; auto.
Qed.

Lemma distinct_clocks_give_distinct_ids_witness :
  let f := mkFile (js "en.json") (json_text "{'a': {'defaultMessage': 'x'}, '7': {'defaultMessage': 'y'}}") in
  exists st,
    run initialState [Upload f; AddRow 1700000000000; AddRow 1700000000001] = Some st
    /\ NoDup (List.map id (translationEntries st)).
Proof.
  intros f. eexists. split; [vm_compute; reflexivity|].
  refine (proj1 (@distinct_clocks_give_distinct_ids
                   [Upload f; AddRow 1700000000000; AddRow 1700000000001] _ _ _ _)).
  - vm_compute. reflexivity.
  - repeat constructor; simpl; intros H;
      repeat (destruct H as [H|H]; [discriminate H|]); exact H.
  - intros t g Ht [Hg|[Hg|[Hg|[]]]]; try discriminate Hg.
    injection Hg as <-. destruct Ht as [<-|[<-|[]]]; vm_compute;
      intros H; repeat (destruct H as [H|H]; [discriminate H|]); exact H.
Defined.

(** ** The object JSON.parse returns is in enumeration order *)





(** ** Export right after an import *)









(** ** The exported object *)

Lemma last_with_key_In (k : jsstring) (l : list TranslationEntry) (x : TranslationEntry) :
  last_with_key k l = Some x -> In x l /\ key x = k.
Proof.
  induction l as [|a l IH]; simpl; [discriminate|].
  destruct (last_with_key k l) as [y|].
  - intros H. injection H as <-. destruct (IH eq_refl). auto.
  - destruct (str_eqb (key a) k) eqn:E; [|discriminate].
    intros H. injection H as <-. apply str_eqb_eq in E. auto.
Qed.

Lemma last_with_key_None (k : jsstring) (l : list TranslationEntry) :
  last_with_key k l = None <-> ~ In k (List.map key l).
Proof.
  induction l as [|a l IH]; simpl; [tauto|].
  destruct (last_with_key k l) as [y|].
  - split; [discriminate|]. intros H. exfalso. apply H. right.
    destruct IH as [_ IH].
    destruct (in_dec (list_eq_dec N.eq_dec) k (List.map key l)) as [Hin|Hin];
      [exact Hin|]. discriminate (IH Hin).
  - destruct (str_eqb (key a) k) eqn:E.
    + apply str_eqb_eq in E. split; [discriminate | tauto].
    + apply str_eqb_neq in E. split; [|reflexivity]. intros _.
      destruct IH as [IH _]. specialize (IH eq_refl). tauto.
Qed.

Lemma stringify_empty (o : TranslationData) : stringify o = js "{}" <-> o = [].
Proof.
  split; [|intros ->; reflexivity].
  destruct o as [|p t]; [reflexivity|]. unfold stringify, newline.
  change (js "{") with [123%N]. change (js "{}") with [123; 125]%N.
  simpl. intros H. discriminate H.
Qed.

Lemma last_with_key_app (k : jsstring) (l1 l2 : list TranslationEntry) :
  last_with_key k (l1 ++ l2)
  = match last_with_key k l2 with
    | Some x => Some x
    | None => last_with_key k l1
    end.
Proof.
  induction l1 as [|a l1 IH]; simpl.
  - destruct (last_with_key k l2); reflexivity.
  - rewrite IH. destruct (last_with_key k l2); reflexivity.
Qed.

(** The last entry with a key among those a filter keeps, by its place in
    the list that is filtered. *)
Lemma last_with_key_filter (p : TranslationEntry -> bool) (k : jsstring)
  (l : list TranslationEntry) (e : TranslationEntry) :
  last_with_key k (filter p l) = Some e
  <-> exists l1 l2,
        l = l1 ++ e :: l2 /\ key e = k /\ p e = true
        /\ forall e', In e' l2 -> key e' = k -> p e' = false.
Proof.
  split.
  - induction l as [|a l IH]; simpl; [discriminate|].
    destruct (p a) eqn:Ea; simpl.
    + destruct (last_with_key k (filter p l)) as [x|] eqn:El.
      * intros H. injection H as ->.
        destruct (IH eq_refl) as (l1 & l2 & -> & Hk & Hp & Hl).
        exists (a :: l1), l2. auto.
      * destruct (str_eqb (key a) k) eqn:E; [|discriminate].
        intros H. injection H as <-. apply str_eqb_eq in E.
        exists [], l. repeat split; auto.
        intros e' Hin Hk. destruct (p e') eqn:Ee; [|reflexivity]. exfalso.
        apply last_with_key_None in El. apply El. apply in_map_iff.
        exists e'. split; [exact Hk|]. apply filter_In. auto.
    + intros H. destruct (IH H) as (l1 & l2 & -> & Hk & Hp & Hl).
      exists (a :: l1), l2. auto.
  - intros (l1 & l2 & -> & Hk & Hp & Hl).
    rewrite filter_app, last_with_key_app. simpl. rewrite Hp. simpl.
    assert (Hn : last_with_key k (filter p l2) = None).
    { apply last_with_key_None. intros Hin. apply in_map_iff in Hin.
      destruct Hin as (e' & Hk' & Hin). apply filter_In in Hin.
      destruct Hin as [Hin Hp']. rewrite (Hl e' Hin Hk') in Hp'. discriminate. }
    rewrite Hn. apply str_eqb_eq in Hk. now rewrite Hk.
Qed.

Lemma exported_filter (data : TranslationData) (e : TranslationEntry) :
  (negb (isNewTranslation data e)
   || (negb (is_blank (key e)) && negb (is_blank (defaultMessage e)))) = true
  <-> exported data e.
Proof.
  unfold exported. rewrite orb_true_iff, andb_true_iff, !negb_true_iff.
  unfold is_blank. rewrite !str_eqb_neq. tauto.
Qed.

(** The exported object, by the places of the rows in the table.  Its
    property under a name other than "__proto__" is written by the last row
    of the table, in table order, that is in the export set and has the name
    as key: a later row of the export set with the same key overwrites an
    earlier one, and rows outside the export set write nothing.  The export
    set holds the rows that are not new and the new rows whose trimmed key
    and trimmed value are both non-empty: the rows that are not dimmed. *)
Theorem export_last_write_wins (data : TranslationData)
  (entries : list TranslationEntry) :
  (forall k m,
      own_lookup (translationsObject data entries) k = Some m
      <-> k <> js "__proto__"
          /\ exists before e after,
               entries = before ++ e :: after
               /\ key e = k
               /\ exported data e
               /\ (forall e', In e' after -> key e' = k -> ~ exported data e')
               /\ m = mkMessage (defaultMessage e))
  /\ (forall e, In e (validEntries data entries)
                 <-> In e entries /\ exported data e)
  /\ (forall e, exported data e <-> isEmptyNewEntry data e = false).
Proof.
  split; [|split].
  - intros k m. unfold translationsObject. rewrite own_lookup_reduce.
    simpl own_lookup.
    change (hasOwnProperty (@nil (jsstring * Message)) k) with false. simpl orb.
    unfold validEntries. split.
    + destruct (last_with_key k (filter _ entries)) as [e|] eqn:El;
        [|discriminate].
      destruct (str_eqb k (js "__proto__")) eqn:Ep; [discriminate|].
      intros H. injection H as <-. apply str_eqb_neq in Ep.
      split; [exact Ep|].
      apply last_with_key_filter in El.
      destruct El as (l1 & l2 & Hl & Hk & Hp & Hafter).
      exists l1, e, l2. repeat split; auto.
      * now apply exported_filter.
      * intros e' Hin Hk' Hex. apply exported_filter in Hex.
        rewrite (Hafter e' Hin Hk') in Hex. discriminate.
    + intros (Hp & l1 & e & l2 & Hl & Hk & Hex & Hafter & ->).
      assert (El : last_with_key k
                     (filter (fun entry =>
                                negb (isNewTranslation data entry)
                                || (negb (is_blank (key entry))
                                    && negb (is_blank (defaultMessage entry))))
                             entries) = Some e).
      { apply last_with_key_filter. exists l1, l2. repeat split; auto.
        - now apply exported_filter.
        - intros e' Hin Hk'. specialize (Hafter e' Hin Hk').
          match goal with |- ?b = false => destruct b eqn:Eb end;
            [|reflexivity].
          exfalso. apply Hafter. now apply exported_filter. }
      rewrite El. apply str_eqb_neq in Hp. now rewrite Hp.
  - intros e. unfold validEntries. rewrite filter_In, exported_filter.
    reflexivity.
  - intros e. rewrite <- exported_filter. unfold isEmptyNewEntry.
    destruct (isNewTranslation data e), (is_blank (key e)),
      (is_blank (defaultMessage e)); simpl; split; congruence.
Qed.

(** ** An array index is written in one way *)

Lemma digits_value_acc (s : jsstring) (acc : N) :
  digits_value acc s
  = match digits_value 0 s with
    | Some v => Some (acc * 10 ^ N.of_nat (List.length s) + v)%N
    | None => None
    end.
Proof.
  revert acc. induction s as [|c s IH]; intros acc.
  - simpl. f_equal. lia.
  - cbn [digits_value]. destruct (is_digit c); [|reflexivity].
    rewrite (IH (10 * acc + (c - 48))%N), (IH (10 * 0 + (c - 48))%N).
    destruct (digits_value 0 s) as [v|]; [|reflexivity]. f_equal.
    cbn [List.length]. rewrite Nat2N.inj_succ, N.pow_succ_r'. lia.
Qed.

Lemma digits_value_cons (c : code_unit) (s : jsstring) (n : N) :
  digits_value 0 (c :: s) = Some n ->
  exists v, digits_value 0 s = Some v
            /\ (48 <= c <= 57)%N
            /\ (n = (c - 48) * 10 ^ N.of_nat (List.length s) + v)%N.
Proof.
  cbn [digits_value]. destruct (is_digit c) eqn:Ec; [|discriminate].
  rewrite digits_value_acc. destruct (digits_value 0 s) as [v|]; [|discriminate].
  intros H. injection H as <-. exists v.
  unfold is_digit in Ec. apply andb_true_iff in Ec. destruct Ec as [E1 E2].
  apply N.leb_le in E1, E2. repeat split; try lia.
Qed.

Lemma digits_value_bound (s : jsstring) (n : N) :
  digits_value 0 s = Some n -> (n < 10 ^ N.of_nat (List.length s))%N.
Proof.
  revert n. induction s as [|c s IH]; intros n H.
  - simpl in H. injection H as <-. simpl. lia.
  - destruct (@digits_value_cons _ _ _ H) as (v & Hv & Hc & ->).
    specialize (IH _ Hv). cbn [List.length].
    rewrite Nat2N.inj_succ, N.pow_succ_r'. nia.
Qed.

Lemma digits_value_inj (s1 s2 : jsstring) (n : N) :
  List.length s1 = List.length s2 ->
  digits_value 0 s1 = Some n -> digits_value 0 s2 = Some n -> s1 = s2.
Proof.
  revert s2 n. induction s1 as [|c1 s1 IH]; intros [|c2 s2] n Hl H1 H2;
    try discriminate Hl; [reflexivity|].
  injection Hl as Hl.
  destruct (@digits_value_cons _ _ _ H1) as (v1 & Hv1 & Hc1 & E1).
  destruct (@digits_value_cons _ _ _ H2) as (v2 & Hv2 & Hc2 & E2).
  pose proof (@digits_value_bound _ _ Hv1) as B1.
  pose proof (@digits_value_bound _ _ Hv2) as B2.
  rewrite <- Hl in *.
  set (P := (10 ^ N.of_nat (List.length s1))%N) in *.
  assert (Hq1 : (c1 - 48 = n / P)%N)
    by (apply (N.div_unique n P _ v1); [exact B1 | lia]).
  assert (Hq2 : (c2 - 48 = n / P)%N)
    by (apply (N.div_unique n P _ v2); [exact B2 | lia]).
  assert (Hc : (c1 - 48 = c2 - 48)%N) by congruence.
  assert (Hv : v1 = v2) by (rewrite Hc in E1; lia).
  subst v2. f_equal; [lia|]. eapply IH; eauto.
Qed.

Lemma array_index_digits (k : jsstring) (n : N) :
  array_index k = Some n ->
  digits_value 0 k = Some n
  /\ (n = 0%N -> k = [48%N])
  /\ (n <> 0%N -> (10 ^ N.of_nat (Nat.pred (List.length k)) <= n)%N).
Proof.
  unfold array_index. destruct k as [|c t]; [discriminate|].
  destruct (c =? 48)%N eqn:Ec.
  - apply N.eqb_eq in Ec. subst c. destruct t; [|discriminate].
    intros H. injection H as <-. repeat split. intros H. now contradiction H.
  - apply N.eqb_neq in Ec.
    destruct (digits_value 0 (c :: t)) as [v|] eqn:Ev; [|discriminate].
    destruct (v <=? 4294967294)%N; [|discriminate].
    intros H. injection H as <-.
    destruct (@digits_value_cons _ _ _ Ev) as (w & Hw & Hc & E).
    split; [reflexivity|]. cbn [List.length Nat.pred].
    split; intros H; nia.
Qed.

Lemma array_index_inj (k1 k2 : jsstring) (n : N) :
  array_index k1 = Some n -> array_index k2 = Some n -> k1 = k2.
Proof.
  intros H1 H2.
  destruct (@array_index_digits _ _ H1) as (D1 & Z1 & L1).
  destruct (@array_index_digits _ _ H2) as (D2 & Z2 & L2).
  destruct (N.eq_dec n 0) as [E|E].
  - rewrite (Z1 E), (Z2 E). reflexivity.
  - specialize (L1 E). specialize (L2 E).
    pose proof (@digits_value_bound _ _ D1) as B1.
    pose proof (@digits_value_bound _ _ D2) as B2.
    apply (@digits_value_inj k1 k2 n); auto.
    destruct k1 as [|c1 t1]; [discriminate H1|].
    destruct k2 as [|c2 t2]; [discriminate H2|].
    cbn [List.length Nat.pred] in *. f_equal.
    destruct (Nat.lt_trichotomy (List.length t1) (List.length t2)) as [Hlt|[Heq|Hlt]];
      [|exact Heq|]; exfalso.
    + assert (10 ^ N.of_nat (S (List.length t1)) <= 10 ^ N.of_nat (List.length t2))%N
        by (apply N.pow_le_mono_r; lia).
      lia.
    + assert (10 ^ N.of_nat (S (List.length t2)) <= 10 ^ N.of_nat (List.length t1))%N
        by (apply N.pow_le_mono_r; lia).
      lia.
Qed.

(** ** The order of the exported properties *)

Lemma In_first_occurrences (k : jsstring) (ks : list jsstring) :
  In k (first_occurrences ks) <-> In k ks.
Proof.
  induction ks as [|a ks IH]; simpl; [tauto|].
  rewrite filter_In, IH, negb_true_iff, str_eqb_neq.
  destruct (list_eq_dec N.eq_dec a k); intuition congruence.
Qed.

Lemma first_occurrences_snoc (ks : list jsstring) (k : jsstring) :
  first_occurrences (ks ++ [k])
  = first_occurrences ks ++ (if existsb (str_eqb k) ks then [] else [k]).
Proof.
  induction ks as [|a ks IH]; simpl; [reflexivity|].
  rewrite IH, filter_app. f_equal. f_equal.
  destruct (str_eqb k a) eqn:E; simpl.
  - destruct (existsb (str_eqb k) ks); simpl; [reflexivity|]. now rewrite E.
  - destruct (existsb (str_eqb k) ks); simpl; [reflexivity|]. now rewrite E.
Qed.

Lemma ordinary_insert_index (V : Type) (n : N) (k : jsstring) (v : V)
  (o : object V) :
  is_index k = true ->
  filter (fun x => negb (is_index x)) (keys (insert_index n k v o))
  = filter (fun x => negb (is_index x)) (keys o).
Proof.
  intros Hk. induction o as [|[k' v'] o IH]; cbn [insert_index].
  - cbn [keys List.map fst filter]. now rewrite Hk.
  - destruct (array_index k') as [m|] eqn:Em.
    + destruct (n <? m)%N.
      * cbn [keys List.map fst filter]. now rewrite Hk.
      * cbn [keys List.map fst filter]. fold (keys (insert_index n k v o)).
        fold (keys o). rewrite IH. reflexivity.
    + cbn [keys List.map fst filter]. now rewrite Hk.
Qed.

(** An assignment adds an ordinary name after the ordinary names there
    are, when it creates a property; otherwise the ordinary names stay. *)
Lemma ordinary_assign (V : Type) (o : object V) (k : jsstring) (v : V) :
  filter (fun x => negb (is_index x)) (keys (assign o k v))
  = filter (fun x => negb (is_index x)) (keys o)
    ++ (if negb (is_index k) && not_proto k && negb (hasOwnProperty o k)
        then [k] else []).
Proof.
  unfold assign. destruct (hasOwnProperty o k).
  - rewrite keys_overwrite, andb_false_r, app_nil_r. reflexivity.
  - rewrite andb_true_r. unfold not_proto.
    destruct (str_eqb k (js "__proto__")); simpl.
    + rewrite andb_false_r, app_nil_r. reflexivity.
    + rewrite andb_true_r. unfold create, is_index at 3.
      destruct (array_index k) as [n|] eqn:En; simpl.
      * rewrite app_nil_r. apply ordinary_insert_index.
        unfold is_index. now rewrite En.
      * unfold keys. rewrite map_app, filter_app. simpl.
        unfold is_index at 2. now rewrite En.
Qed.

Lemma keys_of_reduce (l : list TranslationEntry) (k : jsstring) :
  In k (keys (fold_left reduce_step l []))
  <-> k <> js "__proto__" /\ In k (List.map key l).
Proof.
  rewrite <- hasOwnProperty_In. unfold hasOwnProperty.
  rewrite own_lookup_reduce. simpl own_lookup.
  change (hasOwnProperty (@nil (jsstring * Message)) k) with false. simpl orb.
  destruct (last_with_key k l) as [e|] eqn:El.
  - apply last_with_key_In in El. destruct El as [Hin <-].
    destruct (str_eqb (key e) (js "__proto__")) eqn:Ep; simpl.
    + apply str_eqb_eq in Ep. split; [discriminate | tauto].
    + apply str_eqb_neq in Ep. split; [|reflexivity]. intros _.
      split; [exact Ep | now apply in_map].
  - apply last_with_key_None in El. split; [discriminate | tauto].
Qed.

Lemma ordinary_of_reduce (l : list TranslationEntry) :
  filter (fun x => negb (is_index x)) (keys (fold_left reduce_step l []))
  = first_occurrences
      (filter (fun x => negb (is_index x)) (filter not_proto (List.map key l))).
Proof.
  induction l as [|e l IH] using rev_ind; [reflexivity|].
  rewrite fold_left_app. simpl fold_left. unfold reduce_step at 1.
  rewrite ordinary_assign, IH, map_app, !filter_app. simpl List.map.
  cbn [filter]. destruct (not_proto (key e)) eqn:Ep.
  - cbn [filter]. destruct (is_index (key e)) eqn:Ei; simpl.
    + now rewrite !app_nil_r.
    + rewrite first_occurrences_snoc. f_equal.
      set (W := filter (fun x => negb (is_index x))
                       (filter not_proto (List.map key l))).
      assert (Hw : In (key e) W <-> In (key e) (keys (fold_left reduce_step l []))).
      { unfold W. rewrite !filter_In, keys_of_reduce, negb_true_iff.
        unfold not_proto in *. rewrite negb_true_iff, str_eqb_neq in *.
        tauto. }
      destruct (hasOwnProperty (fold_left reduce_step l []) (key e)) eqn:Eh;
        destruct (existsb (str_eqb (key e)) W) eqn:Ew; simpl; try reflexivity;
        exfalso.
      * apply hasOwnProperty_In in Eh. apply Hw in Eh.
        apply existsb_str_eqb in Eh. congruence.
      * apply existsb_str_eqb in Ew. apply Hw in Ew.
        apply hasOwnProperty_In in Ew. congruence.
  - rewrite andb_false_r. simpl. now rewrite !app_nil_r.
Qed.

Lemma indices_first (ks : list jsstring) :
  in_enumeration_order ks ->
  ks = filter is_index ks ++ filter (fun x => negb (is_index x)) ks.
Proof.
  unfold in_enumeration_order. induction 1 as [|k t Hk Ht IH]; [reflexivity|].
  simpl. destruct (is_index k) eqn:Ek; simpl.
  - f_equal. exact IH.
  - assert (Hall : forall x, In x t -> is_index x = false).
    { rewrite Forall_forall in Hk. intros x Hx. specialize (Hk x Hx).
      unfold precedes, is_index in *.
      destruct (array_index k); [discriminate Ek|].
      destruct (array_index x); [contradiction | reflexivity]. }
    assert (E1 : filter is_index t = []).
    { clear - Hall. induction t as [|x t IH]; simpl; [reflexivity|].
      rewrite (Hall x (or_introl eq_refl)). apply IH. intros; apply Hall.
      now right. }
    assert (E2 : filter (fun x => negb (is_index x)) t = t).
    { apply filter_all. intros x Hx. now rewrite (Hall x Hx). }
    now rewrite E1, E2.
Qed.

Lemma indices_ascend (ks : list jsstring) :
  NoDup ks -> in_enumeration_order ks ->
  StronglySorted index_lt (filter is_index ks).
Proof.
  unfold in_enumeration_order. intros Hnd Hord.
  induction Hord as [|k t Hk Ht IH]; simpl; [constructor|].
  inversion Hnd as [|? ? Hnk Hnt]; subst.
  destruct (is_index k) eqn:Ek; [|auto].
  constructor; [auto|]. rewrite Forall_forall in *.
  intros x Hx. apply filter_In in Hx. destruct Hx as [Hx Hi].
  specialize (Hk x Hx). unfold precedes, index_lt, is_index in *.
  destruct (array_index k) as [a|] eqn:Ea; [|discriminate Ek].
  destruct (array_index x) as [b|] eqn:Eb; [|discriminate Hi].
  destruct (N.eq_dec a b) as [E|E]; [|lia]. subst b. exfalso.
  apply Hnk. now rewrite (@array_index_inj k x a Ea Eb).
Qed.

Lemma validEntries_not_dimmed (data : TranslationData)
  (entries : list TranslationEntry) :
  validEntries data entries = filter (fun e => negb (rowDimmed data e)) entries.
Proof.
  unfold validEntries, rowDimmed, isEmptyNewEntry. apply filter_ext. intros e.
  destruct (isNewTranslation data e), (is_blank (key e)),
    (is_blank (defaultMessage e)); reflexivity.
Qed.

(** The exported object has no property name twice.  Its names are the keys
    of the rows of the table that are not dimmed, "__proto__" apart, and it
    lists them as JavaScript enumerates an object: first the names that are
    array indices, in strictly ascending order, then the other names in the
    order in which the rows of the table first have them as key.  The
    exported text is [{}] exactly when every row is dimmed or has the key
    "__proto__", in particular for an empty table. *)
Theorem exported_object_shape (data : TranslationData)
  (entries : list TranslationEntry) :
  let o := translationsObject data entries in
  let written :=
    filter not_proto
      (List.map key (filter (fun e => negb (rowDimmed data e)) entries)) in
  NoDup (keys o)
  /\ in_enumeration_order (keys o)
  /\ (forall k, In k (keys o) <-> In k written)
  /\ keys o
     = filter is_index (keys o)
       ++ first_occurrences (filter (fun k => negb (is_index k)) written)
  /\ StronglySorted index_lt (filter is_index (keys o))
  /\ (stringify o = js "{}"
      <-> forall e, In e entries ->
                    rowDimmed data e = true \/ key e = js "__proto__").
Proof.
  intros o written.
  destruct (@reduce_keeps_order (validEntries data entries) []
              (NoDup_nil _) (FOP_nil _)) as [Hnd Hord].
  fold (translationsObject data entries) in Hnd, Hord. fold o in Hnd, Hord.
  assert (Hkeys : forall k, In k (keys o) <-> In k written).
  { intros k. unfold o, translationsObject, written.
    rewrite keys_of_reduce, filter_In, validEntries_not_dimmed.
    unfold not_proto. rewrite negb_true_iff, str_eqb_neq. tauto. }
  split; [exact Hnd|]. split; [exact Hord|]. split; [exact Hkeys|].
  split; [|split].
  - rewrite (indices_first Hord) at 1. f_equal.
    unfold o, translationsObject, written.
    rewrite ordinary_of_reduce, validEntries_not_dimmed. reflexivity.
  - apply indices_ascend; assumption.
  - rewrite stringify_empty. split.
    + intros Ho e He.
      destruct (rowDimmed data e) eqn:D; [left; reflexivity|]. right.
      destruct (list_eq_dec N.eq_dec (key e) (js "__proto__")) as [P|P];
        [exact P|].
      exfalso. assert (Hin : In (key e) (keys o)).
      { apply Hkeys. unfold written. apply filter_In. split.
        - apply in_map. apply filter_In. split; [exact He|]. now rewrite D.
        - unfold not_proto. now rewrite negb_true_iff, str_eqb_neq. }
      rewrite Ho in Hin. exact Hin.
    + intros H. destruct o as [|[k m] t] eqn:Eo; [reflexivity|]. exfalso.
      assert (Hin : In k (keys ((k, m) :: t))) by (left; reflexivity).
      apply Hkeys in Hin. unfold written in Hin. apply filter_In in Hin.
      destruct Hin as [Hin P]. apply in_map_iff in Hin.
      destruct Hin as (e & <- & He). apply filter_In in He.
      destruct He as [He D]. apply negb_true_iff in D.
      unfold not_proto in P. rewrite negb_true_iff, str_eqb_neq in P.
      destruct (H e He); congruence.
Qed.

Example exported_object_order :
  let entries := [mkEntry (js "1") (js "b") (js "x");
                  mkEntry (js "2") (js "10") (js "y");
                  mkEntry (js "3") (js "a") (js "z");
                  mkEntry (js "4") (js "b") (js "w");
                  mkEntry (js "5") (js "9") (js "v")] in
  keys (translationsObject [] entries) = [js "9"; js "10"; js "b"; js "a"].
Proof. vm_compute. reflexivity. Qed.

(** ** The dialog *)

(** The dialog is opened by the download buttons only and closed by cancel
    and by confirm only; typing a name and cancelling leave the document as
    it is; opening the dialog forgets a name typed before; and the name the
    file is downloaded under is made of the name typed last. *)
Theorem dialog_state_machine (st : State) :
  (forall a st',
      act st a = Some st' ->
      isDownloadModalOpen st'
      = match a with
        | DownloadClick => true
        | Cancel | Confirm => false
        | _ => isDownloadModalOpen st
        end)
  /\ (forall a st',
         act st a = Some st' ->
         match a with
         | DownloadClick | TypeFileName _ | Cancel | Confirm => true
         | _ => false
         end = true ->
         document st' = document st)
  /\ (forall typed,
         handleDownloadClick (setDownloadFileName typed st) = handleDownloadClick st)
  /\ (forall typed typed',
         download (snd (downloadJSON
                          (setDownloadFileName typed'
                             (setDownloadFileName typed (handleDownloadClick st)))))
         = finalFileName typed').
Proof.
  split; [|split; [|split]].
  - intros a st' H. destruct a; simpl in H; try (injection H as <-; reflexivity).
    destruct (upload_inv _ _ H) as [(_ & _ & _ & _ & ->)|(_ & _ & ->)]; reflexivity.
  - intros a st' H Ha. destruct a; try discriminate Ha; simpl in H;
      injection H as <-; reflexivity.
  - reflexivity.
  - reflexivity.
Qed.

Lemma dialog_state_machine_witness :
  exists st',
    act (handleDownloadClick initialState) Cancel = Some st'
    /\ document st' = document (handleDownloadClick initialState).
Proof.
  eexists. split; [reflexivity|].
  refine (proj1 (proj2 (dialog_state_machine (handleDownloadClick initialState)))
            Cancel _ eq_refl eq_refl).
Defined.

(** ** The clear button of a row *)

(** A row's clear button, where it is rendered, does something: clearing
    under the id of a row of the table whose value is not empty changes the
    list, and afterwards no row with that id has a clear button; the rows
    with another id are as before. *)
Theorem row_clear_button_clears (entries : list TranslationEntry)
  (e : TranslationEntry) :
  In e entries ->
  showClearButton e = true ->
  handleClearTranslation (id e) entries <> entries
  /\ (forall e', In e' (handleClearTranslation (id e) entries) ->
                 id e' = id e -> showClearButton e' = false)
  /\ (forall e', id e' <> id e ->
                 (In e' (handleClearTranslation (id e) entries) <-> In e' entries)).
Proof.
  intros Hin Hshow. unfold handleClearTranslation. split; [|split].
  - intros Heq.
    assert (Hfix : (if str_eqb (id e) (id e) then set_defaultMessage e [] else e) = e).
    { clear - Hin Heq. induction entries as [|x l IH]; [contradiction|].
      simpl in Heq. injection Heq as Hx Hl.
      destruct Hin as [->|Hin]; [exact Hx | auto]. }
    rewrite str_eqb_refl in Hfix. unfold showClearButton in Hshow.
    rewrite <- Hfix in Hshow. discriminate Hshow.
  - intros e' Hin' Hid. apply in_map_iff in Hin'.
    destruct Hin' as (x & Hx & _).
    destruct (str_eqb (id x) (id e)) eqn:E.
    + subst e'. reflexivity.
    + subst e'. apply str_eqb_neq in E. contradiction.
  - intros e' Hid. rewrite in_map_iff. split.
    + intros (x & Hx & Hin'). destruct (str_eqb (id x) (id e)) eqn:E.
      * apply str_eqb_eq in E. subst e'. simpl in Hid. contradiction.
      * now subst e'.
    + intros Hin'. exists e'. split; [|exact Hin'].
      apply str_eqb_neq in Hid. now rewrite Hid.
Qed.

Lemma row_clear_button_clears_witness :
  let entries := [mkEntry (js "a") (js "a") (js "x"); mkEntry (js "b") (js "b") []] in
  showClearButton (mkEntry (js "a") (js "a") (js "x")) = true
  /\ handleClearTranslation (js "a") entries <> entries.
Proof.
  intros entries. split; [reflexivity|].
  exact (proj1 (@row_clear_button_clears entries
                  (mkEntry (js "a") (js "a") (js "x"))
                  (or_introl eq_refl) eq_refl)).
Defined.

(** ** An upload replaces the document *)

(** What a successful upload leaves of the state before it is the dialog
    only: from any two states it gives the same entry list, snapshot and file
    name, so it discards every edit and added row, and uploading the same
    file again changes nothing. *)
Theorem upload_replaces_document (st1 st2 st1' : State) (f : File) :
  upload st1 f = Some st1' ->
  alert (reader_onload (content f)) = None ->
  (exists st2', upload st2 f = Some st2' /\ document st2' = document st1')
  /\ upload st1' f = Some st1'.
Proof.
  intros Hu Ha.
  destruct (upload_inv _ _ Hu) as [(props & Hp & Hd & _ & Hst)|(_ & Ha' & _)];
    [|congruence].
  split.
  - destruct (upload_valid st2 f Hp Hd) as [H2 _].
    eexists. split; [exact H2|]. rewrite Hst. reflexivity.
  - destruct (upload_valid st1' f Hp Hd) as [H1 _]. rewrite H1. f_equal.
    rewrite Hst at 3. rewrite Hst. reflexivity.
Qed.

Lemma upload_replaces_document_witness :
  let f := mkFile (js "en.json") (json_text "{'a': {'defaultMessage': 'x'}}") in
  exists st1 st2 st2',
    run initialState [Upload f] = Some st1
    /\ run st1 [SetValue (js "a") (js "y"); AddRow 5] = Some st2
    /\ upload st2 f = Some st2'
    /\ document st2' = document st1.
Proof.
  intros f. do 2 eexists.
  assert (H1 : upload initialState f
               = Some {| translationEntries := [mkEntry (js "a") (js "a") (js "x")];
                         originalData := [(js "a", mkMessage (js "x"))];
                         fileName := js "en.json";
                         isDownloadModalOpen := false;
                         downloadFileName := [] |})
    by (vm_compute; reflexivity).
  destruct (proj1 (@upload_replaces_document initialState
                     (setTranslationEntries_with (addNewTranslation 5)
                        (setTranslationEntries_with
                           (handleTranslationChange (js "a") (js "y"))
                           {| translationEntries := [mkEntry (js "a") (js "a") (js "x")];
                              originalData := [(js "a", mkMessage (js "x"))];
                              fileName := js "en.json";
                              isDownloadModalOpen := false;
                              downloadFileName := [] |}))
                     _ f H1 ltac:(vm_compute; reflexivity)))
    as (st2' & Hu & Hdoc).
  exists st2'. split; [vm_compute; reflexivity|].
  split; [reflexivity|]. split; [exact Hu | exact Hdoc].
Defined.

(** ** The declared types are enough *)

Lemma own_lookup_typed (props : object json) (data : TranslationData)
  (k : jsstring) :
  as_TranslationData (JObj props) = Some data ->
  match own_lookup props k with
  | Some v => exists m, own_lookup data k = Some m /\ as_Message v = Some m
  | None => own_lookup data k = None
  end.
Proof.
  simpl. revert data. induction props as [|[k' v] props IH]; simpl; intros data H.
  - injection H as <-. reflexivity.
  - destruct (as_Message v) as [m|] eqn:Em; [|discriminate H].
    destruct (map_throwing _ props) as [data'|] eqn:Ed; [|discriminate H].
    injection H as <-. simpl. destruct (str_eqb k' k).
    + exists m. auto.
    + apply IH. reflexivity.
Qed.

Lemma optional_defaultMessage_typed (v : json) (m : Message) :
  as_Message v = Some m ->
  Untyped.optional_defaultMessage v = value (JStr (message_defaultMessage m)).
Proof.
  unfold as_Message, Untyped.optional_defaultMessage.
  destruct v; try discriminate.
  destruct (own_lookup properties (js "defaultMessage")) as [[]|];
    try discriminate.
  intros H. injection H as <-. reflexivity.
Qed.

(** On a state of the declared types the predicates evaluated on what the
    hooks hold never throw and return what the predicates of the typed state
    return, whatever other members the values of the stored snapshot have. *)
Theorem typed_predicates_agree (j : json) (data : TranslationData)
  (r : RawEntry) (e : TranslationEntry) :
  as_TranslationData j = Some data ->
  as_TranslationEntry r = Some e ->
  Untyped.isNewTranslation j r = returns (isNewTranslation data e)
  /\ Untyped.isModified j r = returns (Some (isModified data e))
  /\ Untyped.isEmptyNewEntry j r = returns (isEmptyNewEntry data e).
Proof.
  intros Hd He. destruct j; try discriminate Hd.
  unfold as_TranslationEntry in He.
  destruct r as [ri rk rv]. simpl in He.
  destruct rv as [|[]]; try discriminate He. injection He as <-.
  pose proof (@own_lookup_typed _ _ ri Hd) as Hl.
  assert (Hnew : Untyped.isNewTranslation (JObj properties)
                   (mkRaw ri rk (value (JStr s)))
                 = returns (isNewTranslation data (mkEntry ri rk s))).
  { unfold Untyped.isNewTranslation, isNewTranslation, hasOwnProperty.
    cbn [Untyped.hasOwnProperty_call raw_id id]. unfold hasOwnProperty.
    destruct (own_lookup properties ri) as [v|].
    - destruct Hl as (m & -> & _). reflexivity.
    - rewrite Hl. reflexivity. }
  split; [exact Hnew|]. split.
  - unfold Untyped.isModified, isModified, original_defaultMessage, hasOwnProperty.
    cbn [Untyped.original_defaultMessage Untyped.hasOwnProperty_call
         raw_id raw_defaultMessage id defaultMessage].
    unfold hasOwnProperty.
    destruct (own_lookup properties ri) as [v|].
    + destruct Hl as (m & -> & Hm).
      rewrite (@optional_defaultMessage_typed _ _ Hm).
      cbn [Untyped.strict_neq strict_neq].
      destruct (str_eqb (message_defaultMessage m) s); reflexivity.
    + rewrite Hl. reflexivity.
  - unfold Untyped.isEmptyNewEntry, isEmptyNewEntry. rewrite Hnew.
    cbn [raw_key raw_defaultMessage key defaultMessage Untyped.trim_is_empty].
    destruct (isNewTranslation data (mkEntry ri rk s)); [|reflexivity].
    destruct (is_blank rk); reflexivity.
Qed.

Lemma typed_predicates_agree_witness :
  let j := JObj [(js "a", JObj [(js "defaultMessage", JStr (js "x"));
                                (js "note", JNum (js "1"))])] in
  let data := [(js "a", mkMessage (js "x"))] in
  let r := mkRaw (js "a") (js "renamed") (value (JStr (js "y"))) in
  Untyped.isNewTranslation j r = returns false
  /\ Untyped.isModified j r = returns (Some true)
  /\ Untyped.isEmptyNewEntry j r = returns false.
Proof.
  intros j data r.
  exact (@typed_predicates_agree j data r
           (mkEntry (js "a") (js "renamed") (js "y")) eq_refl eq_refl).
Defined.

(** ** The scenarios of the specification *)

Example scenario_greeting :
  let f := mkFile (js "en.json") (json_text "{'greeting': {'defaultMessage': 'Hello'}}") in
  exists st1 st2,
    run initialState [Upload f] = Some st1
    /\ translationEntries st1 = [mkEntry (js "greeting") (js "greeting") (js "Hello")]
    /\ List.map (isModified (originalData st1)) (translationEntries st1) = [false]
    /\ List.map (isNewTranslation (originalData st1)) (translationEntries st1) = [false]
    /\ run st1 [SetValue (js "greeting") (js "Hola")] = Some st2
    /\ List.map (isModified (originalData st2)) (translationEntries st2) = [true]
    /\ List.map (isNewTranslation (originalData st2)) (translationEntries st2) = [false]
    /\ dataStr (snd (downloadJSON st2))
       = json_text "{
  'greeting': {
    'defaultMessage': 'Hola'
  }
}".
Proof.
  do 2 eexists. split; [vm_compute; reflexivity|].
  repeat split; vm_compute; reflexivity.
Qed.

Example scenario_new_rows :
  exists st,
    run initialState
        [AddRow 1700000000000; SetKey (js "1700000000000") (js "app.title");
         SetValue (js "1700000000000") (js "My App"); AddRow 1700000000001]
    = Some st
    /\ List.length (translationEntries st) = 2
    /\ translationsObject (originalData st) (translationEntries st)
       = [(js "app.title", mkMessage (js "My App"))].
Proof.
  eexists. split; [vm_compute; reflexivity|]. split; reflexivity.
Qed.

Example scenario_duplicate_key :
  translationsObject [(js "1", mkMessage []); (js "2", mkMessage [])]
    [mkEntry (js "1") (js "dup") (js "A"); mkEntry (js "2") (js "dup") (js "B")]
  = [(js "dup", mkMessage (js "B"))].
Proof. reflexivity. Qed.

Example trim_example : trim (js "  a b ") = js "a b".
Proof. reflexivity. Qed.

Example array_index_example :
  array_index (js "0") = Some 0%N /\ array_index (js "42") = Some 42%N
  /\ array_index (js "042") = None /\ array_index (js "4294967295") = None
  /\ array_index (js "b") = None.
Proof. repeat split; reflexivity. Qed.

Example toString_example :
  toString 1700000000000 = js "1700000000000" /\ toString 0 = js "0"
  /\ toString (-5) = js "-5".
Proof. repeat split; reflexivity. Qed.

Example parse_example :
  JSON.parse (json_text " {'b': [1, true, null, -1.5e+3, {}], '1': 'x\ty', 'b': 0} ")
  = Some (JObj [(js "1", JStr [120; 9; 121]%N); (js "b", JNum (js "0"))])
  /\ JSON.parse (json_text "{'a': 01}") = None
  /\ JSON.parse (json_text "{'a': 1,}") = None
  /\ JSON.parse (json_text "{'a': 1} x") = None.
Proof. repeat split; vm_compute; reflexivity. Qed.
